(** * SNARKtor proof-verification library: the off-chain client, embedded

    A shallow embedding of the static helpers of
    [src/SnarktorVerificationClient.js] (the same code is repeated in
    [SnarktorClient] and [GenericSnarktorClient]) and of
    [SnarktorUtils.calculateFeeDistribution], followed by the properties
    of the specification stated over them.

    Conventions.
    - A JavaScript string is a [string]; text is held as its UTF-8
      bytes, so [toUtf8Bytes] is the list of the bytes of the string.
    - A commitment hash is what the code passes around: a hex string
      such as ["0x12ab..."].  [None] stands for JavaScript's [undefined]
      wherever an array is read ([l !! i]).
    - A call either returns, throws, or (for the two [while] loops, which
      are run with fuel) runs out of fuel: type [outcome]. *)

From Stdlib Require Import ZArith NArith Lia List String Ascii Bool.
From Stdlib Require Import Strings.Byte.
From stdpp Require Import base option list strings gmap pretty.

Local Open Scope string_scope.
Local Open Scope list_scope.

(** ** Keccak-256

    [ethers.utils.keccak256] is Keccak-256 (rate 136 bytes, padding byte
    0x01, 32 bytes of output).  Lanes are 64-bit words held in [N]. *)

Module Keccak.
Local Open Scope N_scope.

Definition rotl64 (x n : N) : N :=
  N.land (N.lor (N.shiftl x n) (N.shiftr x (64 - n))) (N.ones 64).

Definition not64 (x : N) : N := N.lxor x (N.ones 64).

(** The state is the list of the 25 lanes, lane [(x, y)] at [x + 5 y]. *)
Definition lane (st : list N) (x y : nat) : N :=
  nth ((x mod 5) + 5 * (y mod 5))%nat st 0.

Definition tabulate (f : nat -> nat -> N) : list N :=
  map (fun i => f (i mod 5)%nat (i / 5)%nat) (seq 0 25).

Definition rotation_offsets : list N :=
  [ 0;  1; 62; 28; 27;
   36; 44;  6; 55; 20;
    3; 10; 43; 25; 39;
   41; 45; 15; 21;  8;
   18;  2; 61; 56; 14].

Definition round_constants : list N :=
  [0x0000000000000001; 0x0000000000008082; 0x800000000000808A;
   0x8000000080008000; 0x000000000000808B; 0x0000000080000001;
   0x8000000080008081; 0x8000000000008009; 0x000000000000008A;
   0x0000000000000088; 0x0000000080008009; 0x000000008000000A;
   0x000000008000808B; 0x800000000000008B; 0x8000000000008089;
   0x8000000000008003; 0x8000000000008002; 0x8000000000000080;
   0x000000000000800A; 0x800000008000000A; 0x8000000080008081;
   0x8000000000008080; 0x0000000080000001; 0x8000000080008008].

Definition theta (st : list N) : list N :=
  let C x := N.lxor (lane st x 0) (N.lxor (lane st x 1)
             (N.lxor (lane st x 2) (N.lxor (lane st x 3) (lane st x 4)))) in
  let D x := N.lxor (C (x + 4)%nat) (rotl64 (C (x + 1)%nat) 1) in
  tabulate (fun x y => N.lxor (lane st x y) (D x)).

(** rho and pi together: B[y, 2x+3y] = rot(A[x, y], r[x, y]); read
    backwards, B[X, Y] comes from x = X + 3Y, y = X. *)
Definition rho_pi (st : list N) : list N :=
  tabulate (fun X Y =>
    let x := ((X + 3 * Y) mod 5)%nat in
    let y := X in
    rotl64 (lane st x y) (nth (x + 5 * y)%nat rotation_offsets 0)).

Definition chi (st : list N) : list N :=
  tabulate (fun x y =>
    N.lxor (lane st x y)
           (N.land (not64 (lane st (x + 1) y)) (lane st (x + 2) y))).

Definition iota (rc : N) (st : list N) : list N :=
  match st with
  | [] => []
  | a :: rest => N.lxor a rc :: rest
  end.

Definition round (st : list N) (rc : N) : list N :=
  iota rc (chi (rho_pi (theta st))).

Definition keccak_f (st : list N) : list N :=
  fold_left round round_constants st.

(** Little-endian lanes. *)
Fixpoint lane_of_bytes (bs : list N) : N :=
  match bs with
  | [] => 0
  | b :: rest => b + 256 * lane_of_bytes rest
  end.

Definition bytes_of_lane (w : N) : list N :=
  map (fun i => N.land (N.shiftr w (8 * N.of_nat i)) 255) (seq 0 8).

Fixpoint lanes_of_block (n : nat) (bs : list N) : list N :=
  match n with
  | O => []
  | S n' => lane_of_bytes (firstn 8 bs) :: lanes_of_block n' (skipn 8 bs)
  end.

Fixpoint xor_lanes (st blk : list N) : list N :=
  match st, blk with
  | s :: st', b :: blk' => N.lxor s b :: xor_lanes st' blk'
  | _, _ => st
  end.

Definition rate : nat := 136.

Definition pad (msg : list N) : list N :=
  let q := (rate - length msg mod rate)%nat in
  if (q =? 1)%nat then msg ++ [0x81]
  else msg ++ [0x01] ++ repeat 0 (q - 2) ++ [0x80].

Fixpoint absorb (blocks : nat) (st : list N) (bs : list N) : list N :=
  match blocks with
  | O => st
  | S k =>
      let st' := keccak_f (xor_lanes st (lanes_of_block 17 (firstn rate bs))) in
      absorb k st' (skipn rate bs)
  end.

Definition squeeze32 (st : list N) : list N :=
  bytes_of_lane (nth 0 st 0) ++ bytes_of_lane (nth 1 st 0)
  ++ bytes_of_lane (nth 2 st 0) ++ bytes_of_lane (nth 3 st 0).

Definition digest (msg : list N) : list N :=
  let padded := pad msg in
  squeeze32 (absorb (length padded / rate) (repeat 0 25) padded).

End Keccak.

Definition byte_of_N (n : N) : byte :=
  match Byte.of_N n with Some b => b | None => x00 end.

Definition keccak256_bytes (data : list byte) : list byte :=
  map byte_of_N (Keccak.digest (map Byte.to_N data)).

(** ** Hex strings: [hexlify], [isHexString], [arrayify] *)

Definition hex_digit (n : N) : ascii :=
  match n with
  | 0 => "0" | 1 => "1" | 2 => "2" | 3 => "3" | 4 => "4" | 5 => "5"
  | 6 => "6" | 7 => "7" | 8 => "8" | 9 => "9" | 10 => "a" | 11 => "b"
  | 12 => "c" | 13 => "d" | 14 => "e" | _ => "f"
  end%N%char.

Definition hex_of_byte (b : byte) : string :=
  let n := Byte.to_N b in
  String (hex_digit (n / 16)) (String (hex_digit (n mod 16)) EmptyString).

Fixpoint hex_of_bytes (bs : list byte) : string :=
  match bs with
  | [] => ""
  | b :: rest => hex_of_byte b +:+ hex_of_bytes rest
  end.

(** [ethers.utils.hexlify] of a byte array: lower-case digits after "0x". *)
Definition hexlify (bs : list byte) : string := "0x" +:+ hex_of_bytes bs.

Definition string_of_bytes (bs : list byte) : string := string_of_list_byte bs.

Definition toUtf8Bytes (s : string) : list byte := list_byte_of_string s.

(** ** Outcomes of a call *)

Inductive exn : Type :=
| Error (message : string)           (* [throw new Error(message)] *)
| InvalidArgument (reason : string)  (* thrown by ethers' argument checks *)
| TypeError (message : string).      (* thrown by the JavaScript runtime *)

(** The error kinds of the specification are the messages of the code. *)
Definition EmptyLeafSet : exn := Error "Empty proofs array".
Definition IndexOutOfRange : exn := Error "Leaf index out of bounds".
Definition UnsupportedPayloadFormat : exn := Error "Unsupported proof data format".

Inductive outcome (A : Type) : Type :=
| Returns (a : A)
| Throws (e : exn)
| OutOfFuel.
Arguments Returns {A} a.
Arguments Throws {A} e.
Arguments OutOfFuel {A}.

#[global] Instance outcome_ret : MRet outcome := fun A a => Returns a.
#[global] Instance outcome_bind : MBind outcome := fun A B f m =>
  match m with
  | Returns a => f a
  | Throws e => Throws e
  | OutOfFuel => OutOfFuel
  end.

Definition returns {A} (m : outcome A) : Prop := exists a, m = Returns a.

(** ** ethers' byte utilities on strings *)

Definition hex_value (c : ascii) : option N :=
  let n := N_of_ascii c in
  if (48 <=? n)%N && (n <=? 57)%N then Some (n - 48)%N
  else if (97 <=? n)%N && (n <=? 102)%N then Some (n - 87)%N
  else if (65 <=? n)%N && (n <=? 70)%N then Some (n - 55)%N
  else None.

Definition is_hex_char (c : ascii) : bool :=
  match hex_value c with Some _ => true | None => false end.

Fixpoint all_hex (s : string) : bool :=
  match s with
  | EmptyString => true
  | String c rest => is_hex_char c && all_hex rest
  end.

(** [isHexString(value)]: the regular expression [/^0x[0-9A-Fa-f]*$/]. *)
Definition isHexString (s : string) : bool :=
  match s with
  | String "0" (String "x" digits) => all_hex digits
  | _ => false
  end.

Definition hex_digits (s : string) : string :=
  match s with
  | String _ (String _ digits) => digits
  | _ => ""
  end.

Fixpoint bytes_of_hex (digits : string) : list byte :=
  match digits with
  | String hi (String lo rest) =>
      byte_of_N (16 * default 0%N (hex_value hi) + default 0%N (hex_value lo))
      :: bytes_of_hex rest
  | _ => []
  end.

(** [arrayify(value)] for a string [value]. *)
Definition arrayify (value : string) : outcome (list byte) :=
  if isHexString value then
    if Nat.odd (String.length (hex_digits value))
    then Throws (InvalidArgument "hex data is odd-length")
    else Returns (bytes_of_hex (hex_digits value))
  else Throws (InvalidArgument "invalid arrayify value").

(** [ethers.utils.keccak256(data)] for a string and for a byte array. *)
Definition keccak256_string (data : string) : outcome string :=
  bs ← arrayify data; Returns (hexlify (keccak256_bytes bs)).

Definition keccak256 (data : list byte) : string :=
  hexlify (keccak256_bytes data).

(** [_pack("bytes32", value)] of ethers' [solidityPack]. *)
Definition pack_bytes32 (value : string) : outcome (list byte) :=
  bs ← arrayify value;
  if (length bs =? 32)%nat then Returns bs
  else Throws (InvalidArgument "invalid value for bytes32").

(** [ethers.utils.solidityKeccak256(['bytes32', 'bytes32'], [left, right])]. *)
Definition solidityKeccak256 (left right : string) : outcome string :=
  l ← pack_bytes32 left;
  r ← pack_bytes32 right;
  Returns (keccak256 (l ++ r)).

(** A well-typed commitment hash: "0x" and 64 hex digits. *)
Definition is_bytes32 (s : string) : bool :=
  isHexString s && (String.length s =? 66)%nat.

(** The 32 bytes a hash string stands for, and [hash(left ++ right)]. *)
Definition bytes32 (s : string) : list byte := bytes_of_hex (hex_digits s).

Definition hashPair (left right : string) : string :=
  keccak256 (bytes32 left ++ bytes32 right).

(** ** The commitment tree (static methods of the client) *)

(** The [for] loop that fills [nextLevel]: consecutive pairs are combined,
    an unpaired last element is pushed as it is. *)
Fixpoint buildNextLevel (currentLevel : list string) : outcome (list string) :=
  match currentLevel with
  | [] => Returns []
  | [last] => Returns [last]
  | a :: b :: rest =>
      combined ← solidityKeccak256 a b;
      nextLevel ← buildNextLevel rest;
      Returns (combined :: nextLevel)
  end.

(** [while (currentLevel.length > 1) { ...; currentLevel = nextLevel; }] *)
Fixpoint buildLoop (fuel : nat) (currentLevel : list string) : outcome (list string) :=
  match fuel with
  | O => OutOfFuel
  | S fuel' =>
      if (1 <? length currentLevel)%nat then
        nextLevel ← buildNextLevel currentLevel;
        buildLoop fuel' nextLevel
      else Returns currentLevel
  end.

Definition buildMerkleTree (proofHashes : list string) : outcome (option string) :=
  if (length proofHashes =? 0)%nat then Throws EmptyLeafSet
  else if (length proofHashes =? 1)%nat then Returns (proofHashes !! 0%nat)
  else
    currentLevel ← buildLoop (length proofHashes) proofHashes;
    Returns (currentLevel !! 0%nat).

Record MerkleProof : Type := mkMerkleProof {
  path : list (option string);
  index : nat;
  leaf : option string;
}.

(** The sibling step of [generateMerkleProof]: [path.push] of a read of
    [currentLevel]; a read out of range would push [undefined]. *)
Definition pushSibling (currentLevel : list string) (index : nat)
    (path : list (option string)) : list (option string) :=
  if (index mod 2 =? 0)%nat then
    if (index + 1 <? length currentLevel)%nat
    then path ++ [currentLevel !! (index + 1)%nat]
    else path
  else path ++ [currentLevel !! (index - 1)%nat].

Fixpoint generateLoop (fuel : nat) (currentLevel : list string) (index : nat)
    (path : list (option string)) : outcome (list (option string)) :=
  match fuel with
  | O => OutOfFuel
  | S fuel' =>
      if (1 <? length currentLevel)%nat then
        let path' := pushSibling currentLevel index path in
        nextLevel ← buildNextLevel currentLevel;
        generateLoop fuel' nextLevel (index / 2) path'
      else Returns path
  end.

Definition generateMerkleProof (proofHashes : list string) (leafIndex : nat)
    : outcome MerkleProof :=
  if (length proofHashes <=? leafIndex)%nat then Throws IndexOutOfRange
  else
    path ← generateLoop (length proofHashes) proofHashes leafIndex [];
    Returns {| path := path; index := leafIndex; leaf := proofHashes !! leafIndex |}.

(** The body of the [for] loop of [verifyMerkleProof], one sibling at a time. *)
Fixpoint verifyLoop (path : list string) (index : nat) (computedHash : string)
    : outcome string :=
  match path with
  | [] => Returns computedHash
  | proofElement :: rest =>
      computedHash' ←
        (if (index mod 2 =? 0)%nat
         then solidityKeccak256 computedHash proofElement
         else solidityKeccak256 proofElement computedHash);
      verifyLoop rest (index / 2) computedHash'
  end.

Definition verifyMerkleProof (path : list string) (index : nat)
    (leaf root : string) : outcome bool :=
  computedHash ← verifyLoop path index leaf;
  Returns (String.eqb computedHash root).

(** ** JavaScript values reaching the proof normalizer

    Structured data is JSON data.  The numbers are the safe integers
    ([Number.isSafeInteger]): a double holds each of them exactly and
    prints it with all its decimal digits, which is not so from 2^53 on,
    nor for fractions; those numbers, NaN and the infinities are left
    out.  The fields of a [JObj] are its own properties in enumeration
    order, with distinct keys; none of them is callable.  The other
    payloads a caller can pass are kept as tags. *)

Definition MAX_SAFE_INTEGER : Z := 2 ^ 53 - 1.

Definition isSafeInteger (z : Z) : bool := (Z.abs z <=? MAX_SAFE_INTEGER)%Z.

Record Number : Type := mkNumber {
  numberValue : Z;
  numberSafe : isSafeInteger numberValue = true;
}.

(** A numeric literal; it is accepted when the integer is safe. *)
Abbreviation int z := (mkNumber z eq_refl).

#[warnings="-register-all"]
Inductive JSON : Type :=
| JNull
| JBool (b : bool)
| JNum (n : Number)
| JStr (s : string)
| JArr (items : list JSON)
| JObj (fields : list (string * JSON)).

Inductive JSValue : Type :=
| VUndefined
| VBigInt (z : Z)
| VSymbol
| VFunction
| VBuffer (bs : list byte)
| VData (j : JSON).

Definition typeof (v : JSValue) : string :=
  match v with
  | VUndefined => "undefined"
  | VBigInt _ => "bigint"
  | VSymbol => "symbol"
  | VFunction => "function"
  | VBuffer _ => "object"
  | VData JNull => "object"
  | VData (JBool _) => "boolean"
  | VData (JNum _) => "number"
  | VData (JStr _) => "string"
  | VData (JArr _) => "object"
  | VData (JObj _) => "object"
  end.

Definition isBuffer (v : JSValue) : bool :=
  match v with VBuffer _ => true | _ => false end.

(** ToBoolean. *)
Definition truthy_json (j : JSON) : bool :=
  match j with
  | JNull => false
  | JBool b => b
  | JNum n => negb (numberValue n =? 0)%Z
  | JStr s => negb (String.eqb s "")
  | JArr _ | JObj _ => true
  end.

Definition truthy (v : JSValue) : bool :=
  match v with
  | VUndefined => false
  | VBigInt z => negb (z =? 0)%Z
  | VSymbol | VFunction | VBuffer _ => true
  | VData j => truthy_json j
  end.

(** Property read [value.key]; [None] is [undefined]. *)
Fixpoint lookup_field (key : string) (fields : list (string * JSON)) : option JSON :=
  match fields with
  | [] => None
  | (k, v) :: rest => if String.eqb k key then Some v else lookup_field key rest
  end.

Definition get_property (j : JSON) (key : string) : option JSON :=
  match j with
  | JObj fields => lookup_field key fields
  | _ => None
  end.


Fixpoint join_with (sep : string) (parts : list string) : string :=
  match parts with
  | [] => ""
  | [p] => p
  | p :: rest => p +:+ sep +:+ join_with sep rest
  end.

Definition double_quote : string := String "034"%char EmptyString.
Definition backslash : string := String "092"%char EmptyString.

(** QuoteJSONString, character by character. *)
Definition escape_char (c : ascii) : string :=
  let n := N_of_ascii c in
  if (n =? 34)%N then backslash +:+ double_quote
  else if (n =? 92)%N then backslash +:+ backslash
  else if (n =? 8)%N then backslash +:+ "b"
  else if (n =? 9)%N then backslash +:+ "t"
  else if (n =? 10)%N then backslash +:+ "n"
  else if (n =? 12)%N then backslash +:+ "f"
  else if (n =? 13)%N then backslash +:+ "r"
  else if (n <? 32)%N then
    backslash +:+ "u00" +:+ String (hex_digit (n / 16)) (String (hex_digit (n mod 16)) "")
  else String c "".

Fixpoint escape (s : string) : string :=
  match s with
  | EmptyString => ""
  | String c rest => escape_char c +:+ escape rest
  end.

Definition quote (s : string) : string := double_quote +:+ escape s +:+ double_quote.

(** Number::toString on a safe integer: below 10^21 the decimal digits,
    with no exponent. *)
Definition number_toString (n : Number) : string := pretty (numberValue n).

(** [JSON.stringify] on JSON data. *)
Fixpoint stringify (j : JSON) : string :=
  match j with
  | JNull => "null"
  | JBool b => if b then "true" else "false"
  | JNum n => number_toString n
  | JStr s => quote s
  | JArr items => "[" +:+ join_with "," (map stringify items) +:+ "]"
  | JObj fields =>
      "{" +:+ join_with ","
               (map (fun kv => quote (fst kv) +:+ ":" +:+ stringify (snd kv)) fields)
          +:+ "}"
  end.

Definition NotPrimitive : exn := TypeError "Cannot convert object to primitive value".

(** ToString, as [Array.prototype.join] applies it to each element:
    [null] and [undefined] give the empty string.  An array is joined
    with commas, element by element from the left.  An object is turned
    into a primitive by its [toString] method, then its [valueOf]: with
    an own [toString] property, which holds data and cannot be called,
    the inherited [valueOf] hands the object back and the conversion
    throws; without one the inherited [toString] answers. *)
Fixpoint toString (j : JSON) : outcome string :=
  match j with
  | JNull => Returns "null"
  | JBool b => Returns (if b then "true" else "false")
  | JNum n => Returns (number_toString n)
  | JStr s => Returns s
  | JArr items =>
      parts ←
        (fix each (items : list JSON) : outcome (list string) :=
           match items with
           | [] => Returns []
           | x :: rest =>
               part ← match x with JNull => Returns "" | _ => toString x end;
               parts ← each rest;
               Returns (part :: parts)
           end) items;
      Returns (join_with "," parts)
  | JObj fields =>
      match lookup_field "toString" fields with
      | Some _ => Throws NotPrimitive
      | None => Returns "[object Object]"
      end
  end.

Definition join_element (j : JSON) : outcome string :=
  match j with JNull => Returns "" | _ => toString j end.

Fixpoint join_elements (components : list JSON) : outcome (list string) :=
  match components with
  | [] => Returns []
  | x :: rest =>
      part ← join_element x;
      parts ← join_elements rest;
      Returns (part :: parts)
  end.

(** [components.join('')] *)
Definition join_components (components : list JSON) : outcome string :=
  parts ← join_elements components;
  Returns (join_with "" parts).

(** [JSON.stringify(value)]: [None] is [undefined]; a BigInt throws;
    a Buffer is serialized through its [toJSON], which gives
    [{ type: 'Buffer', data: [...] }] with the bytes as numbers. *)
Definition JSON_stringify (v : JSValue) : outcome (option string) :=
  match v with
  | VUndefined | VSymbol | VFunction => Returns None
  | VBigInt _ => Throws (TypeError "Do not know how to serialize a BigInt")
  | VBuffer bs =>
      Returns (Some
        ("{" +:+ quote "type" +:+ ":" +:+ quote "Buffer" +:+ ","
             +:+ quote "data" +:+ ":"
             +:+ "[" +:+ join_with "," (map (fun b => pretty (Byte.to_N b)) bs) +:+ "]"
             +:+ "}"))
  | VData j => Returns (Some (stringify j))
  end.

(** [ethers.utils.toUtf8Bytes(str)] where [str] may be [undefined]. *)
Definition toUtf8Bytes_of (str : option string) : outcome (list byte) :=
  match str with
  | Some s => Returns (toUtf8Bytes s)
  | None => Throws (TypeError "Cannot read properties of undefined")
  end.

(** ** The proof normalizer *)

Record ParsedProof : Type := mkParsedProof {
  proofHash : string;
  rawData : string;
  structured : option JSValue;
}.

Definition parseObject (j : JSON) : outcome ParsedProof :=
  let components := [] in
  let components :=
    match get_property j "proof" with
    | Some p => if truthy_json p then components ++ [p] else components
    | None => components
    end in
  let components :=
    match get_property j "publicSignals" with
    | Some p => if truthy_json p then components ++ [JStr (stringify p)] else components
    | None => components
    end in
  let components :=
    match get_property j "vk" with
    | Some p => if truthy_json p then components ++ [JStr (stringify p)] else components
    | None => components
    end in
  let components :=
    if (length components =? 0)%nat then components ++ [JStr (stringify j)]
    else components in
  combined ← join_components components;
  Returns {| proofHash := keccak256 (toUtf8Bytes combined);
             rawData := combined;
             structured := Some (VData j) |}.

Definition parseGenericProof (proofData : JSValue) : outcome ParsedProof :=
  match proofData with
  | VData (JStr s) =>
      (* typeof proofData === 'string' *)
      h ← keccak256_string s;
      Returns {| proofHash := h; rawData := s; structured := None |}
  | VBuffer bs =>
      (* Buffer.isBuffer(proofData) *)
      Returns {| proofHash := keccak256 bs; rawData := hexlify bs; structured := None |}
  | VData j =>
      if truthy_json j && String.eqb (typeof (VData j)) "object"
      then parseObject j
      else Throws UnsupportedPayloadFormat
  | _ => Throws UnsupportedPayloadFormat
  end.

Record ProofHashes : Type := mkProofHashes {
  ph_proofHash : string;
  publicInputHash : string;
  verificationKeyHash : string;
  originalData : JSValue;
}.

(** [value ? keccak256(toUtf8Bytes(JSON.stringify(value)))
          : keccak256(toUtf8Bytes(sentinel))] *)
Definition hashOrDefault (value : JSValue) (sentinel : string) : outcome string :=
  if truthy value then
    str ← JSON_stringify value;
    bs ← toUtf8Bytes_of str;
    Returns (keccak256 bs)
  else Returns (keccak256 (toUtf8Bytes sentinel)).

Definition generateProofHash (proofData publicInputs verificationKey : JSValue)
    : outcome ProofHashes :=
  parsed ← parseGenericProof proofData;
  publicInputHash ← hashOrDefault publicInputs "default_public_input";
  verificationKeyHash ← hashOrDefault verificationKey "default_verification_key";
  Returns {| ph_proofHash := proofHash parsed;
             publicInputHash := publicInputHash;
             verificationKeyHash := verificationKeyHash;
             originalData := default proofData (structured parsed) |}.

(** ** Fee accounting

    [SnarktorUtils.calculateFeeDistribution] (Solidity ^0.8.19): [uint256]
    arithmetic, a product that does not fit reverts ([None]). *)

Definition MAX_UINT256 : Z := 2 ^ 256 - 1.

Definition checked_mul (a b : Z) : option Z :=
  if (a * b <=? MAX_UINT256)%Z then Some (a * b)%Z else None.

Definition calculateFeeDistribution (_totalFee : Z) : option (Z * Z * Z) :=
  c ← checked_mul _totalFee 40;
  i ← checked_mul _totalFee 5;
  a ← checked_mul _totalFee 55;
  Some ((c / 100)%Z, (i / 100)%Z, (a / 100)%Z).

(** The shares as the test computes them, on unbounded integers:
    [totalFee.mul(40).div(100)] and so on. *)
Definition expectedCur (totalFee : Z) : Z := (totalFee * 40 / 100)%Z.
Definition expectedInc (totalFee : Z) : Z := (totalFee * 5 / 100)%Z.
Definition expectedAgg (totalFee : Z) : Z := (totalFee * 55 / 100)%Z.

(** ** The same methods over a store of arrays

    JavaScript arrays are objects: a variable holds a reference, and
    [push] changes the array every holder of the reference sees.  To
    speak of what a call does to the array it is given, the tree methods
    are written once more over an explicit store.  An array is a list of
    elements, each a string or [undefined] ([None]). *)

Module Imp.

Abbreviation store := (gmap nat (list (option string))).

Definition M (A : Type) : Type := store -> outcome A * store.

Definition ret {A} (a : A) : M A := fun σ => (Returns a, σ).

Definition bind {A B} (m : M A) (f : A -> M B) : M B := fun σ =>
  match m σ with
  | (Returns a, σ') => f a σ'
  | (Throws e, σ') => (Throws e, σ')
  | (OutOfFuel, σ') => (OutOfFuel, σ')
  end.

Definition throw {A} (e : exn) : M A := fun σ => (Throws e, σ).

Definition out_of_fuel {A} : M A := fun σ => (OutOfFuel, σ).

Definition lift {A} (o : outcome A) : M A := fun σ => (o, σ).

Notation "x <- m ;; k" := (bind m (fun x => k))
  (at level 100, m at next level, right associativity).
Notation "m ;;; k" := (bind m (fun _ => k))
  (at level 100, right associativity).

(** [[]] and [[...a]]: a new array at a location not in use. *)
Definition new_array (contents : list (option string)) : M nat := fun σ =>
  let l := fresh (dom σ) in (Returns l, <[l := contents]> σ).

Definition read_array (a : nat) : M (list (option string)) := fun σ =>
  match σ !! a with
  | Some xs => (Returns xs, σ)
  | None => (Throws (TypeError "Cannot read properties of undefined"), σ)
  end.

(** [a.length] *)
Definition array_length (a : nat) : M nat :=
  xs <- read_array a ;; ret (length xs).

(** [a[i]]; out of range the read gives [undefined]. *)
Definition array_get (a : nat) (i : nat) : M (option string) :=
  xs <- read_array a ;; ret (mjoin (xs !! i)).

(** [a.push(v)] *)
Definition array_push (a : nat) (v : option string) : M unit := fun σ =>
  match σ !! a with
  | Some xs => (Returns tt, <[a := xs ++ [v]]> σ)
  | None => (Throws (TypeError "Cannot read properties of undefined"), σ)
  end.

(** [solidityKeccak256(['bytes32', 'bytes32'], [left, right])] on what an
    array read gives.  On [undefined] ethers' [arrayify] reads
    [value.toHexString] before it validates anything, and the runtime
    throws. *)
Definition pack_bytes32 (value : option string) : outcome (list byte) :=
  match value with
  | Some v => pack_bytes32 v
  | None =>
      Throws (TypeError "Cannot read properties of undefined (reading 'toHexString')")
  end.

Definition solidityKeccak256 (left right : option string) : outcome string :=
  l ← pack_bytes32 left;
  r ← pack_bytes32 right;
  Returns (keccak256 (l ++ r)).

(** [for (let i = 0; i < currentLevel.length; i += 2) { ... }] *)
Fixpoint forPairs (fuel : nat) (currentLevel nextLevel : nat) (i : nat) : M unit :=
  match fuel with
  | O => out_of_fuel
  | S fuel' =>
      len <- array_length currentLevel ;;
      if (i <? len)%nat then
        (if (i + 1 <? len)%nat then
           a <- array_get currentLevel i ;;
           b <- array_get currentLevel (i + 1) ;;
           combined <- lift (solidityKeccak256 a b) ;;
           array_push nextLevel (Some combined)
         else
           a <- array_get currentLevel i ;;
           array_push nextLevel a) ;;;
        forPairs fuel' currentLevel nextLevel (i + 2)
      else ret tt
  end.

(** [const nextLevel = []; for ...; currentLevel = nextLevel;] *)
Definition nextLevel (currentLevel : nat) : M nat :=
  len <- array_length currentLevel ;;
  next <- new_array [] ;;
  forPairs (S len) currentLevel next 0 ;;;
  ret next.

Fixpoint buildLoop (fuel : nat) (currentLevel : nat) : M nat :=
  match fuel with
  | O => out_of_fuel
  | S fuel' =>
      len <- array_length currentLevel ;;
      if (1 <? len)%nat then
        next <- nextLevel currentLevel ;;
        buildLoop fuel' next
      else ret currentLevel
  end.

Definition buildMerkleTree (proofHashes : nat) : M (option string) :=
  len <- array_length proofHashes ;;
  if (len =? 0)%nat then throw EmptyLeafSet
  else if (len =? 1)%nat then array_get proofHashes 0
  else
    copy <- read_array proofHashes ;;
    currentLevel <- new_array copy ;;
    last <- buildLoop len currentLevel ;;
    array_get last 0.

Fixpoint generateLoop (fuel : nat) (currentLevel : nat) (index : nat) (path : nat)
    : M unit :=
  match fuel with
  | O => out_of_fuel
  | S fuel' =>
      len <- array_length currentLevel ;;
      if (1 <? len)%nat then
        (if (index mod 2 =? 0)%nat then
           if (index + 1 <? len)%nat then
             sibling <- array_get currentLevel (index + 1) ;;
             array_push path sibling
           else ret tt
         else
           sibling <- array_get currentLevel (index - 1) ;;
           array_push path sibling) ;;;
        next <- nextLevel currentLevel ;;
        generateLoop fuel' next (index / 2) path
      else ret tt
  end.

(** The returned object holds a reference to the [path] array. *)
Record MerkleProofRef : Type := mkMerkleProofRef {
  path_ref : nat;
  index_of : nat;
  leaf_of : option string;
}.

Definition generateMerkleProof (proofHashes : nat) (leafIndex : nat)
    : M MerkleProofRef :=
  len <- array_length proofHashes ;;
  if (len <=? leafIndex)%nat then throw IndexOutOfRange
  else
    path <- new_array [] ;;
    copy <- read_array proofHashes ;;
    currentLevel <- new_array copy ;;
    generateLoop len currentLevel leafIndex path ;;;
    leaf <- array_get proofHashes leafIndex ;;
    ret {| path_ref := path; index_of := leafIndex; leaf_of := leaf |}.

End Imp.

(** ** The specification's own words

    What the specification says a level, a path fold and a payload are,
    written independently of the code above. *)

(** "pair consecutive leaves left-to-right ...; if a level has an odd
    count, the last element is promoted unchanged". *)
Fixpoint pairUp (level : list string) : list string :=
  match level with
  | a :: b :: rest => hashPair a b :: pairUp rest
  | _ => level
  end.

(** "for each sibling in path order: if index is even, computedHash =
    hash(computedHash ++ sibling); if index is odd, computedHash =
    hash(sibling ++ computedHash); then index = floor(index/2)". *)
Fixpoint foldPath (siblings : list string) (index : nat) (computedHash : string)
    : string :=
  match siblings with
  | [] => computedHash
  | sibling :: rest =>
      foldPath rest (index / 2)
        (if Nat.even index then hashPair computedHash sibling
         else hashPair sibling computedHash)
  end.

(** "at each level records the sibling of the current index: if the
    current index is even, its sibling is the node at index+1 if it
    exists; if odd, the node at index-1". *)
Definition siblingOf (level : list string) (index : nat) : list string :=
  if Nat.even index then option_list (level !! (index + 1))
  else option_list (level !! (index - 1)).

(** "... then index = floor(index/2)", level after level until one node
    is left; [levels] bounds the number of levels. *)
Fixpoint siblingWalk (levels : nat) (level : list string) (index : nat)
    : list string :=
  match levels with
  | O => []
  | S levels' =>
      if (1 <? length level)%nat
      then siblingOf level index ++ siblingWalk levels' (pairUp level) (index / 2)
      else []
  end.

Definition siblingPath (leaves : list string) (leafIndex : nat) : list string :=
  siblingWalk (length leaves) leaves leafIndex.

(** "payload is neither a string, nor a byte buffer, nor a structured
    object". *)
Definition supported (payload : JSValue) : bool :=
  match payload with
  | VData (JStr _) | VBuffer _ | VData (JArr _) | VData (JObj _) => true
  | _ => false
  end.

(** An optional argument is given when it is neither left out
    ([undefined]) nor [null]. *)
Definition given (value : JSValue) : bool :=
  match value with
  | VUndefined | VData JNull => false
  | _ => true
  end.

(** The text of the JSON serialization of a value, when it has one. *)
Definition json_text (value : JSValue) : option string :=
  match JSON_stringify value with
  | Returns (Some s) => Some s
  | _ => None
  end.

(** A well-typed commitment hash, as a proposition. *)
Definition valid_hash (s : string) : Prop := is_bytes32 s = true.

(** A hash string in the form ethers prints it (lower-case digits). *)
Definition canonical (s : string) : Prop := hexlify (bytes32 s) = s.

(** [keeps σ0 m Q]: run from any store that extends [σ0], the computation
    [m] ends in a store that still extends [σ0] (every array of [σ0] is
    where it was, with the elements it had), and a returned value
    satisfies [Q]. *)
Definition keeps {A} (σ0 : Imp.store) (m : Imp.M A) (Q : A -> Prop) : Prop :=
  forall σ, σ0 ⊆ σ ->
    σ0 ⊆ (m σ).2 /\ forall a, (m σ).1 = Returns a -> Q a.

(** ** Sample data

    The leaves of the repository's tests: the hashes of "proof1",
    "proof2", "proof3" and "proof4". *)

Definition proof1 : string := keccak256 (toUtf8Bytes "proof1").
Definition proof2 : string := keccak256 (toUtf8Bytes "proof2").
Definition proof3 : string := keccak256 (toUtf8Bytes "proof3").
Definition proof4 : string := keccak256 (toUtf8Bytes "proof4").

(** The hash of [proof1] and [proof2], which ethers prints as
    0xf4f8...9d28, written with upper-case digits. *)
Definition upper_case_root : string :=
  "0xF4F8C7389C5F649C8453F8D01D4E0E479043A642000FA74326970FC0AA3B9D28".

(** ** More of the normalizer: [validateProofStructure] and
    [standardizeProofSubmission] *)

(** The [length] of a JavaScript string, in UTF-16 code units, read off
    its UTF-8 bytes: a continuation byte counts for nothing, the lead byte
    of a four-byte sequence for two. *)
Definition utf16_units (b : byte) : nat :=
  let n := Byte.to_N b in
  if (n <? 128)%N then 1%nat
  else if (n <? 192)%N then 0%nat
  else if (n <? 240)%N then 1%nat
  else 2%nat.

Definition js_length (s : string) : nat :=
  fold_right (fun b n => (utf16_units b + n)%nat) 0%nat (list_byte_of_string s).

(** The object [validateProofStructure] returns; a field that is not set
    is [None].  [error] stands for the message of the exception caught. *)
Record Validation : Type := mkValidation {
  isValid : bool;
  valid_proofHash : option string;
  size : option nat;
  error : option exn;
}.

(** [try { parsed = parseGenericProof(proofData); return {...} }
     catch (error) { return { isValid: false, error: error.message } }] *)
Definition validateProofStructure (proofData : JSValue) : outcome Validation :=
  match parseGenericProof proofData with
  | Returns parsed =>
      Returns {| isValid := true;
                 valid_proofHash := Some (proofHash parsed);
                 size := Some (js_length (rawData parsed));
                 error := None |}
  | Throws e =>
      Returns {| isValid := false; valid_proofHash := None;
                 size := None; error := Some e |}
  | OutOfFuel => OutOfFuel
  end.

Record Submission : Type := mkSubmission {
  sub_proofData : string;
  sub_proofHash : string;
  sub_publicInput : string;
  sub_verificationKey : string;
  sub_fee : Z;
  sub_originalData : JSValue;
}.

(** [GenericSnarktorClient.standardizeProofSubmission] *)
Definition standardizeProofSubmission
    (proofData publicInputs verificationKey : JSValue) (fee : Z)
    : outcome Submission :=
  parsed ← parseGenericProof proofData;
  publicInputHash ← hashOrDefault publicInputs "default_public_input";
  verificationKeyHash ← hashOrDefault verificationKey "default_verification_key";
  Returns {| sub_proofData := rawData parsed;
             sub_proofHash := proofHash parsed;
             sub_publicInput := publicInputHash;
             sub_verificationKey := verificationKeyHash;
             sub_fee := fee;
             sub_originalData := default proofData (structured parsed) |}.

(** ** The contracts: [SnarktorUtils] and [SnarktorVerifier] (Solidity)

    A [bytes32] is a list of 32 bytes; a memory array is a list, read and
    written by index with the bounds check of Solidity 0.8 (panic 0x32);
    a mapping is a finite map read with the zero value as default.
    Array lengths and indices are natural numbers (they stay far below
    2^256).  A call succeeds, reverts with a reason, panics, or, for the
    loops, runs out of fuel. *)

#[global] Instance byte_eq_decision : EqDecision byte := Byte.byte_eq_dec.

#[global] Instance byte_countable : Countable byte :=
  inj_countable Byte.to_N Byte.of_N Byte.of_to_N.

Module Sol.

Inductive result (A : Type) : Type :=
| Success (a : A)
| Revert (reason : string)
| Panic (code : N)
| OutOfFuel.
Arguments Success {A} a.
Arguments Revert {A} reason.
Arguments Panic {A} code.
Arguments OutOfFuel {A}.

#[global] Instance result_ret : MRet result := fun A a => Success a.
#[global] Instance result_bind : MBind result := fun A B f m =>
  match m with
  | Success a => f a
  | Revert r => Revert r
  | Panic c => Panic c
  | OutOfFuel => OutOfFuel
  end.

Abbreviation bytes32 := (list byte).

Definition zero32 : bytes32 := replicate 32 x00.

(** [keccak256(abi.encodePacked(a, b))] *)
Definition hash2 (a b : bytes32) : bytes32 := keccak256_bytes (a ++ b).

(** [a[i]] and [a[i] = v] on a memory array. *)
Definition read (a : list bytes32) (i : nat) : result bytes32 :=
  match a !! i with
  | Some v => Success v
  | None => Panic 0x32
  end.

Definition write (a : list bytes32) (i : nat) (v : bytes32) : result (list bytes32) :=
  if (i <? length a)%nat then Success (<[i := v]> a) else Panic 0x32.

(** [for (uint i = 0; i < currentLevel.length; i += 2) { ... }] *)
Fixpoint fillNextLevel (fuel : nat) (currentLevel nextLevel : list bytes32) (i : nat)
    : result (list bytes32) :=
  match fuel with
  | O => OutOfFuel
  | S fuel' =>
      if (i <? length currentLevel)%nat then
        nextLevel' ←
          (if (i + 1 <? length currentLevel)%nat then
             a ← read currentLevel i;
             b ← read currentLevel (i + 1);
             write nextLevel (i / 2) (hash2 a b)
           else
             a ← read currentLevel i;
             write nextLevel (i / 2) a);
        fillNextLevel fuel' currentLevel nextLevel' (i + 2)
      else Success nextLevel
  end.

(** [nextLevel = new bytes32[]((currentLevel.length + 1) / 2); for ...] *)
Definition nextLevel (currentLevel : list bytes32) : result (list bytes32) :=
  fillNextLevel (S (length currentLevel)) currentLevel
    (replicate ((length currentLevel + 1) / 2) zero32) 0.

Fixpoint buildLoop (fuel : nat) (currentLevel : list bytes32) : result (list bytes32) :=
  match fuel with
  | O => OutOfFuel
  | S fuel' =>
      if (1 <? length currentLevel)%nat then
        next ← nextLevel currentLevel;
        buildLoop fuel' next
      else Success currentLevel
  end.

(** [SnarktorUtils.buildMerkleTree] *)
Definition buildMerkleTree (_leaves : list bytes32) : result bytes32 :=
  if (0 <? length _leaves)%nat then
    if (length _leaves =? 1)%nat then read _leaves 0
    else
      currentLevel ← buildLoop (length _leaves) _leaves;
      read currentLevel 0
  else Revert "Empty leaves array".

(** [SnarktorUtils.verifyMerkleProof] and [SnarktorVerifier._verifyMerkleProof]
    (the same body). *)
Fixpoint verifyLoop (_path : list bytes32) (_index : nat) (computedHash : bytes32)
    : bytes32 :=
  match _path with
  | [] => computedHash
  | proofElement :: rest =>
      verifyLoop rest (_index / 2)
        (if (_index mod 2 =? 0)%nat then hash2 computedHash proofElement
         else hash2 proofElement computedHash)
  end.

Definition verifyMerkleProof (_path : list bytes32) (_index : nat)
    (_leaf _root : bytes32) : bool :=
  bool_decide (verifyLoop _path _index _leaf = _root).

(** [for (uint i = 0; i < path.length; i++) newPath[i] = path[i];] *)
Fixpoint copyPath (fuel : nat) (path newPath : list bytes32) (i : nat)
    : result (list bytes32) :=
  match fuel with
  | O => OutOfFuel
  | S fuel' =>
      if (i <? length path)%nat then
        v ← read path i;
        newPath' ← write newPath i v;
        copyPath fuel' path newPath' (i + 1)
      else Success newPath
  end.

Fixpoint generateLoop (fuel : nat) (currentLevel : list bytes32) (index : nat)
    (path : list bytes32) (pathIndex : nat) : result (list bytes32) :=
  match fuel with
  | O => OutOfFuel
  | S fuel' =>
      if (1 <? length currentLevel)%nat then
        newPath ← copyPath (S (length path)) path
                     (replicate (length path + 1) zero32) 0;
        newPath' ←
          (if (index mod 2 =? 0)%nat then
             if (index + 1 <? length currentLevel)%nat then
               sibling ← read currentLevel (index + 1);
               write newPath pathIndex sibling
             else Success newPath
           else
             sibling ← read currentLevel (index - 1);
             write newPath pathIndex sibling);
        next ← nextLevel currentLevel;
        generateLoop fuel' next (index / 2) newPath' (pathIndex + 1)
      else Success path
  end.

(** [SnarktorUtils.generateMerkleProof]: returns [(path, _leafIndex)]. *)
Definition generateMerkleProof (_leaves : list bytes32) (_leafIndex : nat)
    : result (list bytes32 * nat) :=
  if (_leafIndex <? length _leaves)%nat then
    path ← generateLoop (length _leaves) _leaves _leafIndex [] 0;
    Success (path, _leafIndex)
  else Revert "Leaf index out of bounds".

(** [SnarktorUtils.parseTransactionData]: three slices of the payload. *)
Definition parseTransactionData (_data : list byte)
    : result (bytes32 * bytes32 * bytes32) :=
  if (96 <=? length _data)%nat then
    Success (take 32 _data, take 32 (drop 32 _data), take 32 (drop 64 _data))
  else Revert "Insufficient transaction data".

(** [SnarktorUtils.extractProofData]: the first word of the payload. *)
Definition extractProofData (_transactionData : list byte) : result bytes32 :=
  if (32 <=? length _transactionData)%nat then Success (take 32 _transactionData)
  else Revert "Invalid transaction data length".

(** [SnarktorUtils._hexStringToBytes32]: the first word of the bytes of
    the string, as they are. *)
Definition _hexStringToBytes32 (_hexString : string) : result bytes32 :=
  let hexBytes := list_byte_of_string _hexString in
  if (length hexBytes =? 64)%nat then Success (take 32 hexBytes)
  else Revert "Invalid hex string length".

(** [SnarktorUtils.parseHexData] *)
Definition parseHexData (_hexData : string) : result bytes32 :=
  let hexBytes := list_byte_of_string _hexData in
  if (64 <=? length hexBytes)%nat then _hexStringToBytes32 _hexData
  else Revert "Invalid hex data format".

(** *** The verifier contract *)

Record BaseProof : Type := mkBaseProof {
  bp_proofHash : bytes32;
  bp_publicInput : bytes32;
  bp_verificationKey : bytes32;
  bp_exists : bool;
}.

Record AggregatedProof : Type := mkAggregatedProof {
  ap_aggregatedHash : bytes32;
  ap_merkleRoot : bytes32;
  ap_includedProofs : list bytes32;
  ap_exists : bool;
}.

Record MerkleProof : Type := mkMerkleProof {
  mp_path : list bytes32;
  mp_index : nat;
  mp_leaf : bytes32;
}.

Inductive event : Type :=
| ProofInclusionVerified (baseProofHash aggregatedHash : bytes32) (verified : bool)
| MerkleRootValidated (merkleRoot : bytes32) (isValid : bool).

Record storage : Type := mkStorage {
  baseProofs : gmap (list byte) BaseProof;
  aggregatedProofs : gmap (list byte) AggregatedProof;
  events : list event;
}.

Definition noBaseProof : BaseProof :=
  {| bp_proofHash := zero32; bp_publicInput := zero32;
     bp_verificationKey := zero32; bp_exists := false |}.

Definition noAggregatedProof : AggregatedProof :=
  {| ap_aggregatedHash := zero32; ap_merkleRoot := zero32;
     ap_includedProofs := []; ap_exists := false |}.

(** [baseProofs[key]] and [aggregatedProofs[key]] *)
Definition baseProofAt (st : storage) (key : bytes32) : BaseProof :=
  default noBaseProof (baseProofs st !! key).

Definition aggregatedProofAt (st : storage) (key : bytes32) : AggregatedProof :=
  default noAggregatedProof (aggregatedProofs st !! key).

Definition emit (e : event) (st : storage) : storage :=
  {| baseProofs := baseProofs st; aggregatedProofs := aggregatedProofs st;
     events := events st ++ [e] |}.

Definition addBaseProofData (_proofHash _publicInput _verificationKey : bytes32)
    (st : storage) : storage :=
  {| baseProofs :=
       <[_proofHash := {| bp_proofHash := _proofHash;
                          bp_publicInput := _publicInput;
                          bp_verificationKey := _verificationKey;
                          bp_exists := true |}]> (baseProofs st);
     aggregatedProofs := aggregatedProofs st;
     events := events st |}.

Definition addAggregatedProofData (_aggregatedHash _merkleRoot : bytes32)
    (_includedProofs : list bytes32) (st : storage) : storage :=
  {| baseProofs := baseProofs st;
     aggregatedProofs :=
       <[_aggregatedHash := {| ap_aggregatedHash := _aggregatedHash;
                               ap_merkleRoot := _merkleRoot;
                               ap_includedProofs := _includedProofs;
                               ap_exists := true |}]> (aggregatedProofs st);
     events := events st |}.

Definition verifyProofInclusion (_baseProofHash _aggregatedHash : bytes32)
    (_merkleProof : MerkleProof) (st : storage) : result (bool * storage) :=
  if ap_exists (aggregatedProofAt st _aggregatedHash) then
    if bp_exists (baseProofAt st _baseProofHash) then
      let aggregated := aggregatedProofAt st _aggregatedHash in
      let verified :=
        verifyMerkleProof (mp_path _merkleProof) (mp_index _merkleProof)
          _baseProofHash (ap_merkleRoot aggregated) in
      Success (verified,
               emit (ProofInclusionVerified _baseProofHash _aggregatedHash verified) st)
    else Revert "Base proof data not available"
  else Revert "Aggregated proof data not available".

Definition verifyMerkleRoot (_merkleRoot : bytes32) (_proofs : list bytes32)
    (st : storage) : result (bool * storage) :=
  if (length _proofs =? 0)%nat then
    Success (false, emit (MerkleRootValidated _merkleRoot false) st)
  else if (length _proofs =? 1)%nat then
    first ← read _proofs 0;
    let isValid := bool_decide (_merkleRoot = first) in
    Success (isValid, emit (MerkleRootValidated _merkleRoot isValid) st)
  else
    currentLevel ← buildLoop (length _proofs) _proofs;
    top ← read currentLevel 0;
    let isValid := bool_decide (top = _merkleRoot) in
    Success (isValid, emit (MerkleRootValidated _merkleRoot isValid) st).

Definition getBaseProof (_proofHash : bytes32) (st : storage) : result BaseProof :=
  if bp_exists (baseProofAt st _proofHash) then Success (baseProofAt st _proofHash)
  else Revert "Base proof data not available".

Definition getAggregatedProof (_aggregatedHash : bytes32) (st : storage)
    : result AggregatedProof :=
  if ap_exists (aggregatedProofAt st _aggregatedHash)
  then Success (aggregatedProofAt st _aggregatedHash)
  else Revert "Aggregated proof data not available".

Definition isBaseProofAvailable (_proofHash : bytes32) (st : storage) : bool :=
  bp_exists (baseProofAt st _proofHash).

Definition isAggregatedProofAvailable (_aggregatedHash : bytes32) (st : storage)
    : bool :=
  ap_exists (aggregatedProofAt st _aggregatedHash).

End Sol.

(** Pairing a level of [bytes32] values, in the specification's words. *)
Fixpoint pairUpBytes (level : list (list byte)) : list (list byte) :=
  match level with
  | a :: b :: rest => Sol.hash2 a b :: pairUpBytes rest
  | _ => level
  end.

(** * Properties *)

Local Open Scope nat_scope.

Arguments keccak256_bytes : simpl never.
Arguments keccak256 : simpl never.
Arguments hashPair : simpl never.
Arguments hexlify : simpl never.

(** ** Hex strings and digests *)

Section Hex.

Lemma hex_of_byte_app (b : byte) (s : string) :
  hex_of_byte b +:+ s =
  String (hex_digit (Byte.to_N b / 16))
         (String (hex_digit (Byte.to_N b mod 16)) s).
Proof. reflexivity. Qed.

Lemma bytes_of_hex_byte (b : byte) (s : string) :
  bytes_of_hex (hex_of_byte b +:+ s) = b :: bytes_of_hex s.
Proof.
  assert (Hb : byte_of_N
                 (16 * default 0%N (hex_value (hex_digit (Byte.to_N b / 16)))
                  + default 0%N (hex_value (hex_digit (Byte.to_N b mod 16)))) = b)
    by (destruct b; reflexivity).
  rewrite hex_of_byte_app. cbn [bytes_of_hex]. by rewrite Hb.
Qed.

Lemma bytes_of_hex_of_bytes (bs : list byte) :
  bytes_of_hex (hex_of_bytes bs) = bs.
Proof.
  induction bs as [|b bs IH]; [done|].
  cbn [hex_of_bytes]. rewrite bytes_of_hex_byte. by rewrite IH.
Qed.

Lemma all_hex_of_byte (b : byte) (s : string) :
  all_hex (hex_of_byte b +:+ s) = all_hex s.
Proof.
  assert (H1 : is_hex_char (hex_digit (Byte.to_N b / 16)) = true)
    by (destruct b; reflexivity).
  assert (H2 : is_hex_char (hex_digit (Byte.to_N b mod 16)) = true)
    by (destruct b; reflexivity).
  rewrite hex_of_byte_app. cbn [all_hex]. by rewrite H1, H2.
Qed.

Lemma all_hex_of_bytes (bs : list byte) : all_hex (hex_of_bytes bs) = true.
Proof.
  induction bs as [|b bs IH]; [done|].
  cbn [hex_of_bytes]. by rewrite all_hex_of_byte.
Qed.

Lemma length_hex_of_bytes (bs : list byte) :
  String.length (hex_of_bytes bs) = 2 * length bs.
Proof.
  induction bs as [|b bs IH]; [done|].
  cbn [hex_of_bytes]. rewrite hex_of_byte_app.
  cbn [String.length length]. rewrite IH. lia.
Qed.

Lemma hexlify_unfold (bs : list byte) :
  hexlify bs = String "0" (String "x" (hex_of_bytes bs)).
Proof. reflexivity. Qed.

Lemma isHexString_hexlify (bs : list byte) : isHexString (hexlify bs) = true.
Proof. rewrite hexlify_unfold. cbn [isHexString]. apply all_hex_of_bytes. Qed.

Lemma bytes32_hexlify (bs : list byte) : bytes32 (hexlify bs) = bs.
Proof.
  unfold bytes32. rewrite hexlify_unfold. cbn [hex_digits].
  apply bytes_of_hex_of_bytes.
Qed.

Lemma hexlify_inj (x y : list byte) : hexlify x = hexlify y -> x = y.
Proof.
  intros H. rewrite <- (bytes32_hexlify x), <- (bytes32_hexlify y). by rewrite H.
Qed.

Lemma odd_double (n : nat) : Nat.odd (2 * n) = false.
Proof.
  rewrite <- Nat.negb_even, Nat.even_mul. reflexivity.
Qed.

Lemma arrayify_hexlify (bs : list byte) : arrayify (hexlify bs) = Returns bs.
Proof.
  unfold arrayify. rewrite isHexString_hexlify.
  rewrite hexlify_unfold. cbn [hex_digits].
  rewrite length_hex_of_bytes, odd_double.
  by rewrite bytes_of_hex_of_bytes.
Qed.

Lemma length_keccak256_bytes (data : list byte) :
  length (keccak256_bytes data) = 32.
Proof.
  unfold keccak256_bytes, Keccak.digest, Keccak.squeeze32, Keccak.bytes_of_lane.
  rewrite length_map. repeat rewrite length_app. repeat rewrite length_map.
  reflexivity.
Qed.

Lemma is_bytes32_hexlify (bs : list byte) :
  length bs = 32 -> is_bytes32 (hexlify bs) = true.
Proof.
  intros Hlen. unfold is_bytes32. rewrite isHexString_hexlify.
  rewrite hexlify_unfold. cbn [String.length].
  rewrite length_hex_of_bytes, Hlen. reflexivity.
Qed.

Lemma valid_keccak256 (data : list byte) : valid_hash (keccak256 data).
Proof. apply is_bytes32_hexlify, length_keccak256_bytes. Qed.

Lemma canonical_keccak256 (data : list byte) : canonical (keccak256 data).
Proof. unfold canonical, keccak256. by rewrite bytes32_hexlify. Qed.

Lemma valid_hashPair (a b : string) : valid_hash (hashPair a b).
Proof. apply valid_keccak256. Qed.

Lemma length_bytes_of_hex (digits : string) :
  length (bytes_of_hex digits) = Nat.div2 (String.length digits).
Proof.
  remember (String.length digits) as n eqn:Hn.
  revert digits Hn. induction n as [n IH] using lt_wf_ind. intros digits Hn.
  destruct digits as [|hi [|lo rest]]; subst n; try reflexivity.
  cbn [bytes_of_hex length String.length Nat.div2].
  f_equal. eapply IH; [|reflexivity]. cbn [String.length]. lia.
Qed.

Lemma valid_hash_inv (s : string) :
  valid_hash s ->
  isHexString s = true /\ String.length (hex_digits s) = 64.
Proof.
  unfold valid_hash, is_bytes32. intros H.
  apply andb_true_iff in H as [Hhex Hlen]. split; [done|].
  apply Nat.eqb_eq in Hlen.
  destruct s as [|c1 [|c2 digits]]; try discriminate.
  cbn [hex_digits]. cbn [String.length] in Hlen. lia.
Qed.

Lemma arrayify_valid (s : string) :
  valid_hash s -> arrayify s = Returns (bytes32 s) /\ length (bytes32 s) = 32.
Proof.
  intros Hv. apply valid_hash_inv in Hv as [Hhex Hlen].
  unfold arrayify, bytes32. rewrite Hhex, Hlen.
  split; [reflexivity|].
  rewrite length_bytes_of_hex, Hlen. reflexivity.
Qed.

Lemma pack_bytes32_valid (s : string) :
  valid_hash s -> pack_bytes32 s = Returns (bytes32 s).
Proof.
  intros Hv. apply arrayify_valid in Hv as [Harr Hlen].
  unfold pack_bytes32. rewrite Harr. cbn [mbind outcome_bind].
  by rewrite Hlen.
Qed.

Lemma solidityKeccak256_valid (a b : string) :
  valid_hash a -> valid_hash b -> solidityKeccak256 a b = Returns (hashPair a b).
Proof.
  intros Ha Hb. unfold solidityKeccak256.
  rewrite (pack_bytes32_valid a Ha), (pack_bytes32_valid b Hb).
  reflexivity.
Qed.

(** For hashes in printed form, equal strings and equal bytes coincide. *)
Lemma canonical_eq_iff (s t : string) :
  canonical s -> canonical t -> (s = t <-> bytes32 s = bytes32 t).
Proof.
  unfold canonical. intros Hs Ht. split; [by intros ->|].
  intros Heq. rewrite <- Hs, <- Ht. by rewrite Heq.
Qed.

End Hex.

(** ** Levels of the tree *)

Section Levels.

Lemma pair_ind (P : list string -> Prop) :
  P [] -> (forall a, P [a]) -> (forall a b l, P l -> P (a :: b :: l)) ->
  forall l, P l.
Proof.
  intros Hnil Hone Hstep.
  assert (H : forall l, P l /\ forall a, P (a :: l)).
  { induction l as [|b l [IH1 IH2]]; split; auto. }
  intros l. apply H.
Qed.

Lemma buildNextLevel_valid (level : list string) :
  Forall valid_hash level -> buildNextLevel level = Returns (pairUp level).
Proof.
  induction level as [| a | a b l IH] using pair_ind; intros Hv; try reflexivity.
  inversion Hv as [|? ? Ha Hv']; subst. inversion Hv' as [|? ? Hb Hl]; subst.
  cbn [buildNextLevel pairUp].
  rewrite (solidityKeccak256_valid a b Ha Hb), (IH Hl). reflexivity.
Qed.

Lemma Forall_valid_pairUp (level : list string) :
  Forall valid_hash level -> Forall valid_hash (pairUp level).
Proof.
  induction level as [| a | a b l IH] using pair_ind; intros Hv; try assumption.
  inversion Hv as [|? ? Ha Hv']; subst. inversion Hv' as [|? ? Hb Hl]; subst.
  cbn [pairUp]. constructor; [apply valid_hashPair | auto].
Qed.

Lemma length_pairUp (level : list string) :
  length (pairUp level) = (length level + 1) / 2.
Proof.
  induction level as [| a | a b l IH] using pair_ind; try reflexivity.
  cbn [pairUp length]. rewrite IH.
  replace (S (S (length l)) + 1) with (length l + 1 + 1 * 2) by lia.
  rewrite Nat.div_add by lia. lia.
Qed.

Lemma half_up_lt (n : nat) : 2 <= n -> (n + 1) / 2 < n.
Proof.
  intros Hn. apply Nat.Div0.div_lt_upper_bound. lia.
Qed.

Lemma half_up_pos (n : nat) : 1 <= n -> 1 <= (n + 1) / 2.
Proof.
  intros Hn. apply Nat.div_le_lower_bound; lia.
Qed.

Lemma half_lt_half_up (i n : nat) : i < n -> i / 2 < (n + 1) / 2.
Proof.
  intros Hi.
  assert (H1 : i / 2 <= (n - 1) / 2) by (apply Nat.Div0.div_le_mono; lia).
  assert (H2 : (n - 1) / 2 < (n - 1 + 1 * 2) / 2)
    by (rewrite Nat.div_add by lia; lia).
  replace (n - 1 + 1 * 2) with (n + 1) in H2 by lia. lia.
Qed.

Lemma buildLoop_step (fuel : nat) (level : list string) :
  Forall valid_hash level -> 1 < length level ->
  buildLoop (S fuel) level = buildLoop fuel (pairUp level).
Proof.
  intros Hv Hlen. cbn [buildLoop].
  apply Nat.ltb_lt in Hlen. rewrite Hlen.
  by rewrite (buildNextLevel_valid level Hv).
Qed.

Lemma buildLoop_done (fuel : nat) (level : list string) :
  length level <= 1 -> buildLoop (S fuel) level = Returns level.
Proof.
  intros Hlen. cbn [buildLoop].
  apply Nat.ltb_ge in Hlen. by rewrite Hlen.
Qed.

Lemma buildLoop_valid (fuel : nat) :
  forall level, Forall valid_hash level -> level <> [] -> length level <= fuel ->
  exists h, buildLoop fuel level = Returns [h] /\ valid_hash h.
Proof.
  induction fuel as [|fuel IH]; intros level Hv Hne Hlen.
  - destruct level; [done | cbn in Hlen; lia].
  - cbn [buildLoop]. destruct (1 <? length level) eqn:Hcmp.
    + apply Nat.ltb_lt in Hcmp.
      rewrite (buildNextLevel_valid level Hv). cbn [mbind outcome_bind].
      apply IH.
      * by apply Forall_valid_pairUp.
      * intros Heq. pose proof (length_pairUp level) as Hl.
        rewrite Heq in Hl. cbn [length] in Hl.
        pose proof (half_up_pos (length level)). lia.
      * rewrite length_pairUp. pose proof (half_up_lt (length level)). lia.
    + apply Nat.ltb_ge in Hcmp.
      destruct level as [|h [|? ?]]; [done | | cbn in Hcmp; lia].
      exists h. split; [reflexivity|]. by inversion Hv.
Qed.

Lemma buildMerkleTree_valid (proofHashes : list string) :
  Forall valid_hash proofHashes -> proofHashes <> [] ->
  exists h, buildMerkleTree proofHashes = Returns (Some h) /\ valid_hash h.
Proof.
  intros Hv Hne. unfold buildMerkleTree.
  destruct proofHashes as [|a [|b rest]]; [done | |].
  - exists a. split; [reflexivity | by inversion Hv].
  - change (length (a :: b :: rest) =? 0) with false.
    change (length (a :: b :: rest) =? 1) with false. cbv iota.
    destruct (buildLoop_valid (length (a :: b :: rest)) (a :: b :: rest))
      as (h & Hloop & Hh); [done | done | lia |].
    rewrite Hloop. exists h. split; [reflexivity | done].
Qed.

(** The sibling step keeps the path free of [undefined] while the index
    stays inside the level. *)
Lemma pushSibling_defined (level : list string) (index : nat) (acc : list string) :
  index < length level ->
  exists sibs, pushSibling level index (map Some acc) = map Some (acc ++ sibs).
Proof.
  intros Hi. unfold pushSibling.
  destruct (index mod 2 =? 0) eqn:Hpar.
  - destruct (index + 1 <? length level) eqn:Hnext.
    + apply Nat.ltb_lt in Hnext.
      destruct (lookup_lt_is_Some_2 level (index + 1) Hnext) as [x Hx].
      exists [x]. rewrite Hx, map_app. reflexivity.
    + exists []. by rewrite app_nil_r.
  - assert (Hprev : index - 1 < length level) by lia.
    destruct (lookup_lt_is_Some_2 level (index - 1) Hprev) as [x Hx].
    exists [x]. rewrite Hx, map_app. reflexivity.
Qed.

Lemma generateLoop_valid (fuel : nat) :
  forall level index acc,
  Forall valid_hash level -> index < length level -> length level <= fuel ->
  exists sibs,
    generateLoop fuel level index (map Some acc) = Returns (map Some (acc ++ sibs)).
Proof.
  induction fuel as [|fuel IH]; intros level index acc Hv Hi Hlen; [lia|].
  cbn [generateLoop]. destruct (1 <? length level) eqn:Hcmp.
  - apply Nat.ltb_lt in Hcmp.
    destruct (pushSibling_defined level index acc Hi) as [s Hs]. rewrite Hs.
    rewrite (buildNextLevel_valid level Hv). cbn [mbind outcome_bind].
    destruct (IH (pairUp level) (index / 2) (acc ++ s)) as [sibs Hsibs].
    + by apply Forall_valid_pairUp.
    + rewrite length_pairUp. by apply half_lt_half_up.
    + rewrite length_pairUp. pose proof (half_up_lt (length level)). lia.
    + exists (s ++ sibs). rewrite Hsibs. by rewrite app_assoc.
  - exists []. by rewrite app_nil_r.
Qed.

Lemma even_mod2 (n : nat) : Nat.even n = (n mod 2 =? 0).
Proof.
  assert (Hr : n mod 2 < 2) by (apply Nat.mod_upper_bound; lia).
  rewrite (Nat.div_mod_eq n 2) at 1.
  rewrite Nat.add_comm, Nat.even_add_mul_2.
  destruct (n mod 2) as [|[|r]]; [reflexivity | reflexivity | lia].
Qed.

Lemma verifyLoop_valid (siblings : list string) :
  forall index computedHash,
  Forall valid_hash siblings -> valid_hash computedHash ->
  verifyLoop siblings index computedHash
  = Returns (foldPath siblings index computedHash).
Proof.
  induction siblings as [|s rest IH]; intros index h Hv Hh; [reflexivity|].
  inversion Hv as [|? ? Hs Hrest]; subst.
  cbn [verifyLoop foldPath]. rewrite even_mod2.
  destruct (index mod 2 =? 0).
  - rewrite (solidityKeccak256_valid h s Hh Hs). cbn [mbind outcome_bind].
    apply IH; [done | apply valid_hashPair].
  - rewrite (solidityKeccak256_valid s h Hs Hh). cbn [mbind outcome_bind].
    apply IH; [done | apply valid_hashPair].
Qed.

Lemma canonical_foldPath (siblings : list string) :
  forall index computedHash,
  canonical computedHash -> canonical (foldPath siblings index computedHash).
Proof.
  induction siblings as [|s rest IH]; intros index h Hh; [done|].
  cbn [foldPath]. apply IH. destruct (Nat.even index); apply canonical_keccak256.
Qed.

End Levels.

(** ** The commitment tree: claims *)

(** Well-typedness of concrete hashes, by evaluation. *)
Ltac check_hash := vm_compute; reflexivity.
Ltac check_hashes :=
  repeat (apply Forall_cons_2; [check_hash|]); apply Forall_nil_2.

(** C6.  For a single-element list [[h]], [buildMerkleTree] returns [h]
    itself; nothing is hashed (the result is the very string given, valid
    or not). *)
Theorem buildMerkleTree_single_leaf (h : string) :
  buildMerkleTree [h] = Returns (Some h).
Proof. reflexivity. Qed.

(** C3.  For three 32-byte hashes [a], [b], [c], the root is
    [hash(hash(a ++ b) ++ c)]: level one is [[hash(a ++ b); c]], the
    unpaired [c] is carried up unchanged. *)
Theorem buildMerkleTree_three_leaves (a b c : string) :
  valid_hash a -> valid_hash b -> valid_hash c ->
  buildNextLevel [a; b; c] = Returns [hashPair a b; c] /\
  buildMerkleTree [a; b; c] = Returns (Some (hashPair (hashPair a b) c)).
Proof.
  intros Ha Hb Hc.
  assert (Hlevel : buildNextLevel [a; b; c] = Returns [hashPair a b; c]).
  { cbn [buildNextLevel]. by rewrite (solidityKeccak256_valid a b Ha Hb). }
  split; [exact Hlevel|].
  assert (Hab : valid_hash (hashPair a b)) by apply valid_hashPair.
  unfold buildMerkleTree. cbn [length Nat.eqb].
  rewrite buildLoop_step by (repeat constructor; assumption || (cbn; lia)).
  cbn [pairUp].
  rewrite buildLoop_step by (repeat constructor; assumption || (cbn; lia)).
  cbn [pairUp].
  rewrite buildLoop_done by (cbn; lia).
  reflexivity.
Qed.

Lemma buildMerkleTree_three_leaves_witness :
  valid_hash proof1 /\ valid_hash proof2 /\ valid_hash proof3 /\
  buildMerkleTree [proof1; proof2; proof3]
  = Returns (Some (hashPair (hashPair proof1 proof2) proof3)).
Proof.
  assert (H1 : valid_hash proof1) by check_hash.
  assert (H2 : valid_hash proof2) by check_hash.
  assert (H3 : valid_hash proof3) by check_hash.
  split; [exact H1|]. split; [exact H2|]. split; [exact H3|].
  exact (proj2 (buildMerkleTree_three_leaves proof1 proof2 proof3 H1 H2 H3)).
Defined.

(** Padding the odd level with a copy of [c] gives another root. *)
Example three_leaves_not_padded :
  buildMerkleTree [proof1; proof2; proof3]
  <> Returns (Some (hashPair (hashPair proof1 proof2) (hashPair proof3 proof3))).
Proof. vm_compute. discriminate. Qed.

(** C7.  On the empty list [buildMerkleTree] throws "Empty proofs array"
    (EmptyLeafSet); on every non-empty list of 32-byte hashes it returns a
    32-byte hash. *)
Theorem buildMerkleTree_empty_or_root :
  buildMerkleTree [] = Throws EmptyLeafSet /\
  forall proofHashes,
    proofHashes <> [] -> Forall valid_hash proofHashes ->
    exists root, buildMerkleTree proofHashes = Returns (Some root) /\ valid_hash root.
Proof.
  split; [reflexivity|].
  intros proofHashes Hne Hv. by apply buildMerkleTree_valid.
Qed.

Lemma buildMerkleTree_empty_or_root_witness :
  [proof1; proof2; proof3] <> [] /\
  Forall valid_hash [proof1; proof2; proof3] /\
  exists root,
    buildMerkleTree [proof1; proof2; proof3] = Returns (Some root) /\ valid_hash root.
Proof.
  assert (Hne : [proof1; proof2; proof3] <> []) by discriminate.
  assert (Hv : Forall valid_hash [proof1; proof2; proof3])
    by check_hashes.
  split; [exact Hne|]. split; [exact Hv|].
  exact (proj2 buildMerkleTree_empty_or_root [proof1; proof2; proof3] Hne Hv).
Defined.

(** C5, as stated, fails: the comparison is [===] on hex strings, not on
    the bytes they stand for.  The fold of [proof1] through [[proof2]]
    is, byte for byte, the root written here with upper-case digits (a
    well-typed 32-byte hash, which ethers accepts), and the answer is
    [false]; so it is for a path with no sibling, when leaf and root are
    the same 32 bytes written in different case. *)
Lemma verifyMerkleProof_upper_case_root_rejected :
  (Forall valid_hash [proof2] /\ valid_hash proof1 /\ valid_hash upper_case_root /\
   bytes32 (foldPath [proof2] 0 proof1) = bytes32 upper_case_root /\
   verifyMerkleProof [proof2] 0 proof1 upper_case_root = Returns false) /\
  (valid_hash (hashPair proof1 proof2) /\
   bytes32 (foldPath [] 0 (hashPair proof1 proof2)) = bytes32 upper_case_root /\
   verifyMerkleProof [] 0 (hashPair proof1 proof2) upper_case_root = Returns false).
Proof.
  split.
  - split; [check_hashes|]. split; [check_hash|]. split; [check_hash|].
    split; vm_compute; reflexivity.
  - split; [check_hash|]. split; vm_compute; reflexivity.
Qed.

(** C5, amended.  On a well-typed input (32-byte siblings, a 32-byte
    leaf, any index) [verifyMerkleProof] always returns, never throws,
    and the boolean it returns is [true] exactly when the fold of the leaf
    through the path is the root, character for character; for a leaf and
    a root in the lower-case form ethers prints, that is equality of the
    32 bytes. *)
Theorem verifyMerkleProof_total_exact
    (siblings : list string) (index : nat) (leaf root : string) :
  Forall valid_hash siblings -> valid_hash leaf ->
  (exists b,
     verifyMerkleProof siblings index leaf root = Returns b /\
     (b = true <-> foldPath siblings index leaf = root)) /\
  (canonical leaf -> canonical root ->
   (verifyMerkleProof siblings index leaf root = Returns true
    <-> bytes32 (foldPath siblings index leaf) = bytes32 root)).
Proof.
  intros Hv Hleaf.
  assert (Hrun : verifyMerkleProof siblings index leaf root
                 = Returns (String.eqb (foldPath siblings index leaf) root)).
  { unfold verifyMerkleProof. by rewrite (verifyLoop_valid siblings index leaf Hv Hleaf). }
  split.
  - exists (String.eqb (foldPath siblings index leaf) root).
    split; [exact Hrun | apply String.eqb_eq].
  - intros Hcl Hcr. rewrite Hrun.
    rewrite <- (canonical_eq_iff _ _ (canonical_foldPath siblings index leaf Hcl) Hcr).
    rewrite <- String.eqb_eq. split; [by intros [= ->] | by intros ->].
Qed.

Lemma verifyMerkleProof_total_exact_witness :
  Forall valid_hash [proof1; proof3] /\ valid_hash proof2 /\
  exists b,
    verifyMerkleProof [proof1; proof3] 1 proof2
      (hashPair (hashPair proof1 proof2) proof3) = Returns b /\
    (b = true <->
     foldPath [proof1; proof3] 1 proof2 = hashPair (hashPair proof1 proof2) proof3).
Proof.
  assert (Hv : Forall valid_hash [proof1; proof3])
    by check_hashes.
  assert (Hl : valid_hash proof2) by check_hash.
  split; [exact Hv|]. split; [exact Hl|].
  exact (proj1 (verifyMerkleProof_total_exact [proof1; proof3] 1 proof2
                  (hashPair (hashPair proof1 proof2) proof3) Hv Hl)).
Defined.

(** A path that is too short or too long is rejected, not an error. *)
Example verify_short_and_long_path :
  verifyMerkleProof [proof1] 1 proof2 (hashPair (hashPair proof1 proof2) proof3)
  = Returns false /\
  verifyMerkleProof [proof1; proof3; proof4] 1 proof2
    (hashPair (hashPair proof1 proof2) proof3) = Returns false /\
  verifyMerkleProof [proof1; proof3] 1 proof2
    (hashPair (hashPair proof1 proof2) proof3) = Returns true.
Proof. vm_compute. auto. Qed.

(** C1.  The round trip fails at the promoted leaf of an odd level.  For
    the leaves [[proof1; proof2; proof3]] and index 2 the generated path is
    [[hash(proof1 ++ proof2)]] with index 2; the verifier, reading index 2
    as "left child", computes [hash(proof3 ++ hash(proof1 ++ proof2))] and
    rejects the path against the root built from the same leaves. *)
Theorem generateMerkleProof_promoted_leaf_rejected :
  buildMerkleTree [proof1; proof2; proof3]
  = Returns (Some (hashPair (hashPair proof1 proof2) proof3)) /\
  generateMerkleProof [proof1; proof2; proof3] 2
  = Returns {| path := [Some (hashPair proof1 proof2)];
               index := 2; leaf := Some proof3 |} /\
  verifyMerkleProof [hashPair proof1 proof2] 2 proof3
    (hashPair (hashPair proof1 proof2) proof3) = Returns false.
Proof. vm_compute. auto. Qed.

(** ** Fee accounting: claims *)

Local Open Scope Z_scope.

(** C2.  The shares are to sum to the fee, the remainder of the
    truncations going to the aggregation share.  The code at a fee of 1:
    every share is 0, the aggregation share is its own floor and not
    what the other two leave of the fee, and the shares sum to 0.  The
    sum the repository's test asserts, computed as the test computes it,
    is not the fee either. *)
Theorem fee_shares_of_one_sum_to_zero :
  calculateFeeDistribution 1 = Some (0, 0, 0) /\
  (forall currentLevel inclusion aggregation,
     calculateFeeDistribution 1 = Some (currentLevel, inclusion, aggregation) ->
     currentLevel + inclusion + aggregation = 0 /\
     aggregation <> 1 - currentLevel - inclusion) /\
  expectedCur 1 + expectedInc 1 + expectedAgg 1 <> 1.
Proof.
  split; [reflexivity|]. split; [|vm_compute; discriminate].
  intros currentLevel inclusion aggregation. intros [= <- <- <-].
  split; [reflexivity | discriminate].
Qed.

(** What the code computes of every fee.  The three shares are the three
    floors, the aggregation share included; their sum never exceeds
    [totalFee], falls short of it by at most 2, and equals it exactly
    when [totalFee] is a multiple of 20.  The contract's function returns
    these shares as long as [totalFee * 55] fits in 256 bits. *)
Theorem fee_shares_sum (totalFee : Z) :
  0 <= totalFee ->
  let sum := expectedCur totalFee + expectedInc totalFee + expectedAgg totalFee in
  sum <= totalFee /\ totalFee - sum <= 2 /\
  (sum = totalFee <-> totalFee mod 20 = 0) /\
  (totalFee * 55 <= MAX_UINT256 ->
   calculateFeeDistribution totalFee
   = Some (expectedCur totalFee, expectedInc totalFee, expectedAgg totalFee)).
Proof.
  intros Hnonneg. unfold expectedCur, expectedInc, expectedAgg. cbv zeta.
  repeat split.
  - Z.div_mod_to_equations. lia.
  - Z.div_mod_to_equations. lia.
  - Z.div_mod_to_equations. lia.
  - Z.div_mod_to_equations. lia.
  - intros Hfits. unfold calculateFeeDistribution, checked_mul.
    assert (H40 : (totalFee * 40 <=? MAX_UINT256) = true) by (apply Z.leb_le; lia).
    assert (H5 : (totalFee * 5 <=? MAX_UINT256) = true) by (apply Z.leb_le; lia).
    assert (H55 : (totalFee * 55 <=? MAX_UINT256) = true) by (apply Z.leb_le; lia).
    rewrite H40, H5, H55. reflexivity.
Qed.

(** A fee whose product with 55 does not fit in 256 bits reverts. *)
Lemma calculateFeeDistribution_reverts (totalFee : Z) :
  MAX_UINT256 < totalFee * 55 -> calculateFeeDistribution totalFee = None.
Proof.
  intros Hbig. unfold calculateFeeDistribution, checked_mul.
  destruct (totalFee * 40 <=? MAX_UINT256); [|reflexivity].
  destruct (totalFee * 5 <=? MAX_UINT256); [|reflexivity].
  assert (H55 : (totalFee * 55 <=? MAX_UINT256) = false) by (apply Z.leb_gt; lia).
  by rewrite H55.
Qed.

Lemma fee_shares_sum_witness :
  0 <= 10 ^ 18 /\
  expectedCur (10 ^ 18) + expectedInc (10 ^ 18) + expectedAgg (10 ^ 18) <= 10 ^ 18 /\
  (expectedCur (10 ^ 18) + expectedInc (10 ^ 18) + expectedAgg (10 ^ 18) = 10 ^ 18
   <-> 10 ^ 18 mod 20 = 0).
Proof.
  assert (H0 : 0 <= 10 ^ 18) by (vm_compute; discriminate).
  pose proof (fee_shares_sum (10 ^ 18) H0) as (Hle & _ & Hiff & _).
  split; [exact H0|]. split; [exact Hle | exact Hiff].
Defined.

(** The fee of the test, one ether, is a multiple of 20. *)
Example fee_shares_of_one_ether :
  calculateFeeDistribution (10 ^ 18)
  = Some (4 * 10 ^ 17, 5 * 10 ^ 16, 55 * 10 ^ 16).
Proof. reflexivity. Qed.

Example fee_shares_of_nineteen : calculateFeeDistribution 19 = Some (7, 0, 10).
Proof. reflexivity. Qed.

(** A fee whose product with 40 does not fit in 256 bits reverts. *)
Example fee_shares_overflow : calculateFeeDistribution (2 ^ 255) = None.
Proof. reflexivity. Qed.

Local Close Scope Z_scope.

(** ** The proof normalizer: claims *)

Lemma parseGenericProof_unsupported (payload : JSValue) :
  supported payload = false ->
  parseGenericProof payload = Throws UnsupportedPayloadFormat.
Proof.
  destruct payload as [| | | | |j]; try discriminate; try reflexivity.
  destruct j; try discriminate; cbn [parseGenericProof typeof truthy_json].
  - reflexivity.
  - by rewrite andb_false_r.
  - by rewrite andb_false_r.
Qed.

(** Induction on JSON data, with the elements of an array as smaller. *)
Lemma JSON_items_ind (P : JSON -> Prop) :
  P JNull -> (forall b, P (JBool b)) -> (forall n, P (JNum n)) ->
  (forall s, P (JStr s)) ->
  (forall items, Forall P items -> P (JArr items)) ->
  (forall fields, P (JObj fields)) ->
  forall j, P j.
Proof.
  intros Hnull Hbool Hnum Hstr Harr Hobj.
  fix IH 1. intros [ |b|n|s|items|fields].
  - exact Hnull.
  - apply Hbool.
  - apply Hnum.
  - apply Hstr.
  - apply Harr. revert items.
    fix IHitems 1. intros [|x rest]; constructor; [apply IH | apply IHitems].
  - apply Hobj.
Qed.

(** Converting JSON data to a string either gives the string or fails
    on an object that has a [toString] property of its own. *)
Lemma toString_cases (j : JSON) :
  returns (toString j) \/ toString j = Throws NotPrimitive.
Proof.
  induction j as [ |b|n|s|items IHitems|fields] using JSON_items_ind;
    try (left; eexists; reflexivity).
  - cbn [toString].
    match goal with
    | |- context [?each items ≫= _] =>
        assert (Heach : returns (each items) \/ each items = Throws NotPrimitive)
    end.
    { induction IHitems as [|x rest Hx _ IHrest].
      - left. eexists. reflexivity.
      - assert (Hx' : returns (match x with JNull => Returns "" | _ => toString x end)
                      \/ match x with JNull => Returns "" | _ => toString x end
                         = Throws NotPrimitive).
        { destruct x; try exact Hx. left. eexists. reflexivity. }
        destruct Hx' as [[part Hpart]|Hx']; rewrite ?Hpart, ?Hx'; [|by right].
        cbn [mbind outcome_bind].
        destruct IHrest as [[parts Hparts]|Hrest]; rewrite ?Hparts, ?Hrest.
        + left. eexists. reflexivity.
        + by right. }
    destruct Heach as [[parts Hparts]|Heach]; rewrite ?Hparts, ?Heach.
    + left. eexists. reflexivity.
    + by right.
  - cbn [toString]. destruct (lookup_field "toString" fields).
    + by right.
    + left. eexists. reflexivity.
Qed.

Lemma join_element_cases (j : JSON) :
  returns (join_element j) \/ join_element j = Throws NotPrimitive.
Proof.
  destruct j; try apply toString_cases. left. eexists. reflexivity.
Qed.

Lemma join_components_cases (components : list JSON) :
  returns (join_components components)
  \/ join_components components = Throws NotPrimitive.
Proof.
  unfold join_components.
  assert (Hparts : returns (join_elements components)
                   \/ join_elements components = Throws NotPrimitive).
  { induction components as [|x rest IH].
    - left. eexists. reflexivity.
    - cbn [join_elements].
      destruct (join_element_cases x) as [[part ->]| ->]; [|by right].
      cbn [mbind outcome_bind].
      destruct IH as [[parts ->]| ->]; [|by right].
      left. eexists. reflexivity. }
  destruct Hparts as [[parts ->]| ->]; [|by right].
  left. eexists. reflexivity.
Qed.

(** A structured payload is normalized, with itself kept as [structured],
    unless joining its components fails. *)
Lemma parseObject_cases (j : JSON) :
  (exists parsed, parseObject j = Returns parsed /\
                  structured parsed = Some (VData j) /\
                  proofHash parsed = keccak256 (toUtf8Bytes (rawData parsed)))
  \/ parseObject j = Throws NotPrimitive.
Proof.
  unfold parseObject.
  match goal with
  | |- context [join_components ?c] =>
      destruct (join_components_cases c) as [[combined ->]| ->]
  end.
  - left. eexists. split; [reflexivity|]. split; reflexivity.
  - by right.
Qed.

(** Buffers always normalize; a string does when it is a hex string with
    an even number of digits; a structured value does unless it holds,
    where it is joined, an object with a [toString] property. *)
Lemma parseGenericProof_returns (payload : JSValue) :
  supported payload = true ->
  (forall s, payload = VData (JStr s) ->
             isHexString s = true /\ Nat.odd (String.length (hex_digits s)) = false) ->
  (forall j, payload = VData j -> parseObject j <> Throws NotPrimitive) ->
  returns (parseGenericProof payload).
Proof.
  intros Hsup Hstr Hobj.
  destruct payload as [| | | |bs|j]; try discriminate.
  - eexists. reflexivity.
  - destruct j; try discriminate.
    + destruct (Hstr s eq_refl) as [Hhex Hodd].
      cbn [parseGenericProof]. unfold keccak256_string, arrayify.
      rewrite Hhex, Hodd. eexists. reflexivity.
    + cbn [parseGenericProof truthy_json typeof]. cbn [andb String.eqb].
      destruct (parseObject_cases (JArr items)) as [(parsed & -> & _)|Hthrow].
      * by eexists.
      * by destruct (Hobj _ eq_refl).
    + cbn [parseGenericProof truthy_json typeof]. cbn [andb String.eqb].
      destruct (parseObject_cases (JObj fields)) as [(parsed & -> & _)|Hthrow].
      * by eexists.
      * by destruct (Hobj _ eq_refl).
Qed.

Lemma parseGenericProof_string_throws (s : string) :
  isHexString s = false \/ Nat.odd (String.length (hex_digits s)) = true ->
  exists reason, parseGenericProof (VData (JStr s)) = Throws (InvalidArgument reason).
Proof.
  intros Hbad. cbn [parseGenericProof]. unfold keccak256_string, arrayify.
  destruct (isHexString s).
  - destruct Hbad as [Hbad|Hbad]; [discriminate|]. rewrite Hbad. eexists. reflexivity.
  - eexists. reflexivity.
Qed.

(** C9.  Payloads that are neither string, buffer nor structured object
    are refused with "Unsupported proof data format"; but a string payload
    is handed to [ethers.utils.keccak256] as it is, and the plain string of
    the repository's test, "example_proof", makes that call throw: no
    commitment is returned for this supported payload. *)
Theorem parseGenericProof_plain_string_throws :
  (forall payload, supported payload = false ->
     parseGenericProof payload = Throws UnsupportedPayloadFormat) /\
  supported (VData (JStr "example_proof")) = true /\
  parseGenericProof (VData (JStr "example_proof"))
  = Throws (InvalidArgument "invalid arrayify value") /\
  parseGenericProof (VData (JStr "0x123456789abcdef"))
  = Throws (InvalidArgument "hex data is odd-length").
Proof.
  split; [exact parseGenericProof_unsupported|].
  split; [reflexivity|]. split; reflexivity.
Qed.

Example parseGenericProof_refuses :
  parseGenericProof (VData JNull) = Throws UnsupportedPayloadFormat /\
  parseGenericProof (VData (JNum (int 7))) = Throws UnsupportedPayloadFormat /\
  parseGenericProof (VData (JBool true)) = Throws UnsupportedPayloadFormat /\
  parseGenericProof VFunction = Throws UnsupportedPayloadFormat /\
  parseGenericProof VUndefined = Throws UnsupportedPayloadFormat.
Proof. repeat split. Qed.

Example parseGenericProof_structured :
  exists parsed,
    parseGenericProof
      (VData (JObj [("proof", JStr "data");
                    ("publicSignals", JArr [JStr "1"; JStr "2"])]))
    = Returns parsed /\
    rawData parsed
    = "data[" +:+ double_quote +:+ "1" +:+ double_quote +:+ ","
      +:+ double_quote +:+ "2" +:+ double_quote +:+ "]".
Proof. eexists. split; reflexivity. Qed.

Lemma hashOrDefault_falsy (value : JSValue) (sentinel : string) :
  truthy value = false ->
  hashOrDefault value sentinel = Returns (keccak256 (toUtf8Bytes sentinel)).
Proof. intros Hf. unfold hashOrDefault. by rewrite Hf. Qed.

Lemma hashOrDefault_truthy (value : JSValue) (sentinel text : string) :
  truthy value = true -> json_text value = Some text ->
  hashOrDefault value sentinel = Returns (keccak256 (toUtf8Bytes text)).
Proof.
  intros Ht Htext. unfold hashOrDefault. rewrite Ht.
  unfold json_text in Htext.
  destruct (JSON_stringify value) as [[s|]| |]; try discriminate.
  injection Htext as ->. reflexivity.
Qed.

(** C4, as stated, fails: the public input 0 is given, and serializes to
    "0", yet the hash returned for it is the hash of the sentinel; and for
    a payload that is refused nothing is returned at all. *)
Lemma generateProofHash_zero_input_gets_sentinel :
  given (VData (JNum (int 0))) = true /\
  json_text (VData (JNum (int 0))) = Some "0" /\
  (exists hashes,
     generateProofHash (VData (JStr "0x1234")) (VData (JNum (int 0))) VUndefined
     = Returns hashes /\
     publicInputHash hashes = keccak256 (toUtf8Bytes "default_public_input") /\
     publicInputHash hashes <> keccak256 (toUtf8Bytes "0")) /\
  generateProofHash (VData JNull) (VData (JNum (int 0))) VUndefined
  = Throws UnsupportedPayloadFormat.
Proof.
  split; [reflexivity|]. split; [reflexivity|]. split; [|reflexivity].
  eexists. split; [vm_compute; reflexivity|].
  split; vm_compute; [reflexivity | discriminate].
Qed.

(** C4, amended.  Whenever the payload itself normalizes,
    [generateProofHash] returns its commitment together with, for each of
    the two optional arguments, the hash of the UTF-8 bytes of its JSON
    serialization when the argument is truthy, and the hash of the
    sentinel ("default_public_input", "default_verification_key") when it
    is falsy: left out, [null], but also [false], [0] and the empty
    string.  A payload that [parseGenericProof] refuses makes
    [generateProofHash] throw the same error: nothing is returned for it,
    whatever the optional arguments are. *)
Theorem generateProofHash_commitments
    (proofData publicInputs verificationKey : JSValue) :
  (forall parsed,
     parseGenericProof proofData = Returns parsed ->
     (truthy publicInputs = true -> is_Some (json_text publicInputs)) ->
     (truthy verificationKey = true -> is_Some (json_text verificationKey)) ->
     generateProofHash proofData publicInputs verificationKey
     = Returns
         {| ph_proofHash := proofHash parsed;
            publicInputHash :=
              keccak256 (toUtf8Bytes
                (if truthy publicInputs
                 then default "" (json_text publicInputs)
                 else "default_public_input"));
            verificationKeyHash :=
              keccak256 (toUtf8Bytes
                (if truthy verificationKey
                 then default "" (json_text verificationKey)
                 else "default_verification_key"));
            originalData := default proofData (structured parsed) |}) /\
  (forall e,
     parseGenericProof proofData = Throws e ->
     generateProofHash proofData publicInputs verificationKey = Throws e) /\
  (supported proofData = false ->
   generateProofHash proofData publicInputs verificationKey
   = Throws UnsupportedPayloadFormat).
Proof.
  split; [|split].
  - intros parsed Hparsed Hpi Hvk. unfold generateProofHash. rewrite Hparsed.
    cbn [mbind outcome_bind].
    assert (Hside : forall value sentinel,
              (truthy value = true -> is_Some (json_text value)) ->
              hashOrDefault value sentinel
              = Returns (keccak256 (toUtf8Bytes
                  (if truthy value then default "" (json_text value) else sentinel)))).
    { intros value sentinel Hsome. destruct (truthy value) eqn:Ht.
      - destruct (Hsome eq_refl) as [text Htext]. rewrite Htext.
        by apply hashOrDefault_truthy.
      - by apply hashOrDefault_falsy. }
    rewrite (Hside publicInputs _ Hpi), (Hside verificationKey _ Hvk).
    reflexivity.
  - intros e Hthrow. unfold generateProofHash. by rewrite Hthrow.
  - intros Hsup. unfold generateProofHash.
    by rewrite (parseGenericProof_unsupported proofData Hsup).
Qed.

Lemma generateProofHash_commitments_witness :
  (exists parsed,
     parseGenericProof (VData (JStr "0x1234")) = Returns parsed /\
     generateProofHash (VData (JStr "0x1234"))
       (VData (JArr [JStr "input1"; JStr "input2"])) VUndefined
     = Returns
         {| ph_proofHash := proofHash parsed;
            publicInputHash :=
              keccak256 (toUtf8Bytes
                (default "" (json_text (VData (JArr [JStr "input1"; JStr "input2"])))));
            verificationKeyHash := keccak256 (toUtf8Bytes "default_verification_key");
            originalData := VData (JStr "0x1234") |}) /\
  parseGenericProof (VData (JStr "example_proof"))
  = Throws (InvalidArgument "invalid arrayify value") /\
  generateProofHash (VData (JStr "example_proof"))
    (VData (JArr [JStr "input1"; JStr "input2"])) VUndefined
  = Throws (InvalidArgument "invalid arrayify value").
Proof.
  assert (Hparsed : parseGenericProof (VData (JStr "0x1234"))
                    = Returns {| proofHash := keccak256 [x12; x34];
                                 rawData := "0x1234";
                                 structured := None |})
    by (vm_compute; reflexivity).
  assert (Hpi : truthy (VData (JArr [JStr "input1"; JStr "input2"])) = true ->
                is_Some (json_text (VData (JArr [JStr "input1"; JStr "input2"]))))
    by (intros _; vm_compute; eexists; reflexivity).
  assert (Hvk : truthy VUndefined = true -> is_Some (json_text VUndefined))
    by (simpl; discriminate).
  assert (Hthrow : parseGenericProof (VData (JStr "example_proof"))
                   = Throws (InvalidArgument "invalid arrayify value"))
    by (vm_compute; reflexivity).
  split; [|split; [exact Hthrow|]].
  - eexists. split; [exact Hparsed|].
    exact (proj1 (generateProofHash_commitments _ _ _) _ Hparsed Hpi Hvk).
  - exact (proj1 (proj2 (generateProofHash_commitments
                           (VData (JStr "example_proof"))
                           (VData (JArr [JStr "input1"; JStr "input2"])) VUndefined))
             _ Hthrow).
Defined.

(** Other given-but-falsy arguments: [false] and the empty string. *)
Example hashOrDefault_false_and_empty :
  hashOrDefault (VData (JBool false)) "default_public_input"
  = Returns (keccak256 (toUtf8Bytes "default_public_input")) /\
  hashOrDefault (VData (JStr "")) "default_verification_key"
  = Returns (keccak256 (toUtf8Bytes "default_verification_key")).
Proof. split; reflexivity. Qed.

(** A function as public input is truthy but has no JSON text. *)
Example generateProofHash_function_input :
  generateProofHash (VData (JStr "0x1234")) VFunction VUndefined
  = Throws (TypeError "Cannot read properties of undefined").
Proof. vm_compute. reflexivity. Qed.

(** ** The store: what a call leaves untouched *)

Section Frame.

Import Imp.

Lemma keeps_weaken {A} (σ0 : store) (m : M A) (Q R : A -> Prop) :
  keeps σ0 m Q -> (forall a, Q a -> R a) -> keeps σ0 m R.
Proof.
  intros Hm HQR σ Hσ. destruct (Hm σ Hσ) as [Hsub Hq]. split; [done|].
  intros a Ha. apply HQR, Hq, Ha.
Qed.

Lemma keeps_ret {A} (σ0 : store) (a : A) (Q : A -> Prop) :
  Q a -> keeps σ0 (ret a) Q.
Proof. intros Hq σ Hσ. split; [done|]. by intros ? [= <-]. Qed.

Lemma keeps_throw {A} (σ0 : store) (e : exn) (Q : A -> Prop) :
  keeps σ0 (throw e) Q.
Proof. intros σ Hσ. split; [done|]. intros ?; discriminate. Qed.

Lemma keeps_out_of_fuel {A} (σ0 : store) (Q : A -> Prop) :
  keeps σ0 out_of_fuel Q.
Proof. intros σ Hσ. split; [done|]. intros ?; discriminate. Qed.

Lemma keeps_lift {A} (σ0 : store) (o : outcome A) :
  keeps σ0 (lift o) (fun _ => True).
Proof. intros σ Hσ. split; done. Qed.

Lemma keeps_bind {A B} (σ0 : store) (m : M A) (f : A -> M B)
    (Q : A -> Prop) (R : B -> Prop) :
  keeps σ0 m Q -> (forall a, Q a -> keeps σ0 (f a) R) -> keeps σ0 (bind m f) R.
Proof.
  intros Hm Hf σ Hσ. unfold bind.
  destruct (Hm σ Hσ) as [Hsub Hq].
  destruct (m σ) as [[a|e|] σ']; cbn [fst snd] in *.
  - apply Hf; [by apply Hq | done].
  - split; [done|]. intros ?; discriminate.
  - split; [done|]. intros ?; discriminate.
Qed.

(** A new array is placed where [σ0] has none. *)
Lemma keeps_new_array (σ0 : store) (contents : list (option string)) :
  keeps σ0 (new_array contents) (fun l => σ0 !! l = None).
Proof.
  intros σ Hσ. unfold new_array. cbn [fst snd].
  assert (Hfresh : σ !! fresh (dom σ) = None)
    by apply not_elem_of_dom_1, is_fresh.
  assert (Hfresh0 : σ0 !! fresh (dom σ) = None)
    by (eapply lookup_weaken_None; eauto).
  split; [by apply insert_subseteq_r|]. by intros ? [= <-].
Qed.

Lemma keeps_read_array (σ0 : store) (a : nat) :
  keeps σ0 (read_array a) (fun _ => True).
Proof. intros σ Hσ. unfold read_array. destruct (σ !! a); split; done. Qed.

Lemma keeps_array_length (σ0 : store) (a : nat) :
  keeps σ0 (array_length a) (fun _ => True).
Proof.
  unfold array_length. eapply keeps_bind; [apply keeps_read_array|].
  intros xs _. by apply keeps_ret.
Qed.

Lemma keeps_array_get (σ0 : store) (a i : nat) :
  keeps σ0 (array_get a i) (fun _ => True).
Proof.
  unfold array_get. eapply keeps_bind; [apply keeps_read_array|].
  intros xs _. by apply keeps_ret.
Qed.

(** [push] on an array that is not one of [σ0]'s. *)
Lemma keeps_array_push (σ0 : store) (a : nat) (v : option string) :
  σ0 !! a = None -> keeps σ0 (array_push a v) (fun _ => True).
Proof.
  intros Ha σ Hσ. unfold array_push.
  destruct (σ !! a); cbn [fst snd]; split; try done.
  by apply insert_subseteq_r.
Qed.

Lemma keeps_forPairs (σ0 : store) (fuel : nat) :
  forall currentLevel next i,
  σ0 !! next = None ->
  keeps σ0 (forPairs fuel currentLevel next i) (fun _ => True).
Proof.
  induction fuel as [|fuel IH]; intros cur next i Hnext;
    [apply keeps_out_of_fuel|].
  cbn [forPairs]. eapply keeps_bind; [apply keeps_array_length|].
  intros len _. destruct (i <? len); [|by apply keeps_ret].
  eapply keeps_bind with (Q := fun _ => True); [|intros _ _; by apply IH].
  destruct (i + 1 <? len).
  - eapply keeps_bind; [apply keeps_array_get|]. intros a _.
    eapply keeps_bind; [apply keeps_array_get|]. intros b _.
    eapply keeps_bind; [apply keeps_lift|]. intros combined _.
    by apply keeps_array_push.
  - eapply keeps_bind; [apply keeps_array_get|]. intros a _.
    by apply keeps_array_push.
Qed.

Lemma keeps_nextLevel (σ0 : store) (currentLevel : nat) :
  keeps σ0 (nextLevel currentLevel) (fun l => σ0 !! l = None).
Proof.
  unfold nextLevel. eapply keeps_bind; [apply keeps_array_length|].
  intros len _. eapply keeps_bind; [apply keeps_new_array|].
  intros next Hnext. eapply keeps_bind; [by apply keeps_forPairs|].
  intros _ _. by apply keeps_ret.
Qed.

Lemma keeps_buildLoop (σ0 : store) (fuel : nat) :
  forall currentLevel, keeps σ0 (buildLoop fuel currentLevel) (fun _ => True).
Proof.
  induction fuel as [|fuel IH]; intros cur; [apply keeps_out_of_fuel|].
  cbn [buildLoop]. eapply keeps_bind; [apply keeps_array_length|].
  intros len _. destruct (1 <? len); [|by apply keeps_ret].
  eapply keeps_bind; [apply keeps_nextLevel|]. intros next _. apply IH.
Qed.

Lemma keeps_generateLoop (σ0 : store) (fuel : nat) :
  forall currentLevel index path,
  σ0 !! path = None ->
  keeps σ0 (generateLoop fuel currentLevel index path) (fun _ => True).
Proof.
  induction fuel as [|fuel IH]; intros cur index path Hpath;
    [apply keeps_out_of_fuel|].
  cbn [generateLoop]. eapply keeps_bind; [apply keeps_array_length|].
  intros len _. destruct (1 <? len); [|by apply keeps_ret].
  eapply keeps_bind with (Q := fun _ => True).
  - destruct (index mod 2 =? 0); [destruct (index + 1 <? len)|].
    + eapply keeps_bind; [apply keeps_array_get|]. intros s _.
      by apply keeps_array_push.
    + by apply keeps_ret.
    + eapply keeps_bind; [apply keeps_array_get|]. intros s _.
      by apply keeps_array_push.
  - intros _ _. eapply keeps_bind; [apply keeps_nextLevel|].
    intros next _. by apply IH.
Qed.

Lemma keeps_buildMerkleTree (σ0 : store) (proofHashes : nat) :
  keeps σ0 (Imp.buildMerkleTree proofHashes) (fun _ => True).
Proof.
  unfold Imp.buildMerkleTree. eapply keeps_bind; [apply keeps_array_length|].
  intros len _. destruct (len =? 0); [apply keeps_throw|].
  destruct (len =? 1); [apply keeps_array_get|].
  eapply keeps_bind; [apply keeps_read_array|]. intros copy _.
  eapply keeps_bind; [apply keeps_new_array|]. intros cur _.
  eapply keeps_bind; [apply keeps_buildLoop|]. intros last _.
  apply keeps_array_get.
Qed.

Lemma keeps_generateMerkleProof (σ0 : store) (proofHashes leafIndex : nat) :
  keeps σ0 (Imp.generateMerkleProof proofHashes leafIndex) (fun _ => True).
Proof.
  unfold Imp.generateMerkleProof. eapply keeps_bind; [apply keeps_array_length|].
  intros len _. destruct (len <=? leafIndex); [apply keeps_throw|].
  eapply keeps_bind; [apply keeps_new_array|]. intros path Hpath.
  eapply keeps_bind; [apply keeps_read_array|]. intros copy _.
  eapply keeps_bind; [apply keeps_new_array|]. intros cur _.
  eapply keeps_bind; [by apply keeps_generateLoop|]. intros _ _.
  eapply keeps_bind; [apply keeps_array_get|]. intros leaf _.
  by apply keeps_ret.
Qed.

End Frame.

(** ** The store version computes what the list version computes *)

Section Refinement.

Lemma read_array_at (σ : Imp.store) (a : nat) (xs : list (option string)) :
  σ !! a = Some xs -> Imp.read_array a σ = (Returns xs, σ).
Proof. intros H. unfold Imp.read_array. by rewrite H. Qed.

Lemma array_length_at (σ : Imp.store) (a : nat) (xs : list (option string)) :
  σ !! a = Some xs -> Imp.array_length a σ = (Returns (length xs), σ).
Proof.
  intros H. unfold Imp.array_length, Imp.bind.
  by rewrite (read_array_at σ a xs H).
Qed.

Lemma array_get_at (σ : Imp.store) (a i : nat) (xs : list (option string)) :
  σ !! a = Some xs -> Imp.array_get a i σ = (Returns (mjoin (xs !! i)), σ).
Proof.
  intros H. unfold Imp.array_get, Imp.bind.
  by rewrite (read_array_at σ a xs H).
Qed.

Lemma array_push_at (σ : Imp.store) (a : nat) (v : option string)
    (xs : list (option string)) :
  σ !! a = Some xs -> Imp.array_push a v σ = (Returns tt, <[a := xs ++ [v]]> σ).
Proof. intros H. unfold Imp.array_push. by rewrite H. Qed.

Lemma get_defined (xs : list string) (i : nat) :
  mjoin ((Some <$> xs) !! i) = xs !! i.
Proof. rewrite list_lookup_fmap. by destruct (xs !! i). Qed.

Lemma solidityKeccak256_defined (a b : string) :
  Imp.solidityKeccak256 (Some a) (Some b) = solidityKeccak256 a b.
Proof. reflexivity. Qed.

Lemma push_defined (acc : list string) (x : string) :
  (Some <$> acc) ++ [Some x] = Some <$> (acc ++ [x]).
Proof. by rewrite fmap_app. Qed.

Lemma bind_returns {A B} (m : Imp.M A) (f : A -> Imp.M B)
    (σ σ' : Imp.store) (a : A) :
  m σ = (Returns a, σ') -> Imp.bind m f σ = f a σ'.
Proof. intros H. unfold Imp.bind. by rewrite H. Qed.

Lemma bind_fails {A B} (m : Imp.M A) (f : A -> Imp.M B) (σ : Imp.store) :
  (forall a, (m σ).1 <> Returns a) ->
  (Imp.bind m f σ).1 = match (m σ).1 with
                        | Returns _ => OutOfFuel
                        | Throws e => Throws e
                        | OutOfFuel => OutOfFuel
                        end.
Proof.
  intros H. unfold Imp.bind. destruct (m σ) as [[a|e|] σ']; cbn [fst] in *;
    [by destruct (H a) | done | done].
Qed.

(** The [for] loop from position [i]: it appends to [next] what the list
    version makes of the elements from [i] on, or stops as it does. *)
Lemma forPairs_spec (cur next : nat) (xs : list string) (fuel : nat) :
  forall (i : nat) (σ : Imp.store) (acc : list string),
  cur <> next ->
  σ !! cur = Some (Some <$> xs) -> σ !! next = Some (Some <$> acc) ->
  length xs - i < fuel ->
  match buildNextLevel (drop i xs) with
  | Returns ys =>
      Imp.forPairs fuel cur next i σ
      = (Returns tt, <[next := Some <$> (acc ++ ys)]> σ)
  | Throws e => (Imp.forPairs fuel cur next i σ).1 = Throws e
  | OutOfFuel => (Imp.forPairs fuel cur next i σ).1 = OutOfFuel
  end.
Proof.
  induction fuel as [|fuel IH]; intros i σ acc Hne Hcur Hnext Hfuel; [lia|].
  cbn [Imp.forPairs].
  rewrite (bind_returns _ _ σ σ _ (array_length_at σ cur _ Hcur)), length_fmap.
  destruct (i <? length xs) eqn:Hi.
  - apply Nat.ltb_lt in Hi.
    destruct (lookup_lt_is_Some_2 xs i Hi) as [a Ha].
    rewrite (drop_S xs a i Ha).
    destruct (i + 1 <? length xs) eqn:Hi1.
    + apply Nat.ltb_lt in Hi1.
      destruct (lookup_lt_is_Some_2 xs (i + 1) Hi1) as [b Hb].
      replace (S i) with (i + 1) by lia. rewrite (drop_S xs b (i + 1) Hb).
      replace (S (i + 1)) with (i + 2) by lia.
      cbn [buildNextLevel].
      destruct (solidityKeccak256 a b) as [c|e|] eqn:Hhash;
        cbn [mbind outcome_bind].
      * specialize (IH (i + 2) (<[next := Some <$> (acc ++ [c])]> σ) (acc ++ [c]) Hne).
        rewrite lookup_insert_ne, lookup_insert_eq in IH by done.
        specialize (IH Hcur eq_refl ltac:(lia)).
        assert (Hbody :
          Imp.bind (Imp.array_get cur i) (fun a0 =>
            Imp.bind (Imp.array_get cur (i + 1)) (fun b0 =>
              Imp.bind (Imp.lift (Imp.solidityKeccak256 a0 b0)) (fun combined =>
                Imp.array_push next (Some combined)))) σ
          = (Returns tt, <[next := Some <$> (acc ++ [c])]> σ)).
        { rewrite (bind_returns _ _ σ σ _ (array_get_at σ cur i _ Hcur)).
          rewrite (bind_returns _ _ σ σ _ (array_get_at σ cur (i + 1) _ Hcur)).
          rewrite !get_defined, Ha, Hb.
          rewrite (bind_returns _ _ σ σ c)
            by (unfold Imp.lift; by rewrite solidityKeccak256_defined, Hhash).
          by rewrite (array_push_at σ next _ _ Hnext), push_defined. }
        rewrite (bind_returns _ _ σ _ _ Hbody).
        destruct (buildNextLevel (drop (i + 2) xs)) as [ys|e|];
          cbn [mbind outcome_bind]; [|done|done].
        rewrite IH, insert_insert_eq, <- app_assoc. reflexivity.
      * rewrite bind_fails.
        all: rewrite (bind_returns _ _ σ σ _ (array_get_at σ cur i _ Hcur)).
        all: rewrite (bind_returns _ _ σ σ _ (array_get_at σ cur (i + 1) _ Hcur)).
        all: rewrite !get_defined, Ha, Hb.
        all: unfold Imp.bind, Imp.lift; rewrite solidityKeccak256_defined, Hhash.
        all: done.
      * rewrite bind_fails.
        all: rewrite (bind_returns _ _ σ σ _ (array_get_at σ cur i _ Hcur)).
        all: rewrite (bind_returns _ _ σ σ _ (array_get_at σ cur (i + 1) _ Hcur)).
        all: rewrite !get_defined, Ha, Hb.
        all: unfold Imp.bind, Imp.lift; rewrite solidityKeccak256_defined, Hhash.
        all: done.
    + apply Nat.ltb_ge in Hi1.
      replace (S i) with (i + 1) by lia.
      rewrite (drop_ge xs (i + 1)) by lia.
      cbn [buildNextLevel].
      specialize (IH (i + 2) (<[next := Some <$> (acc ++ [a])]> σ) (acc ++ [a]) Hne).
      rewrite lookup_insert_ne, lookup_insert_eq in IH by done.
      specialize (IH Hcur eq_refl ltac:(lia)).
      rewrite (drop_ge xs (i + 2)) in IH by lia. cbn [buildNextLevel] in IH.
      assert (Hbody :
        Imp.bind (Imp.array_get cur i) (fun a0 => Imp.array_push next a0) σ
        = (Returns tt, <[next := Some <$> (acc ++ [a])]> σ)).
      { rewrite (bind_returns _ _ σ σ _ (array_get_at σ cur i _ Hcur)).
        rewrite get_defined, Ha.
        by rewrite (array_push_at σ next _ _ Hnext), push_defined. }
      rewrite (bind_returns _ _ σ _ _ Hbody).
      rewrite IH, insert_insert_eq, app_nil_r. reflexivity.
  - apply Nat.ltb_ge in Hi. rewrite (drop_ge xs i) by lia.
    cbn [buildNextLevel]. rewrite app_nil_r.
    unfold Imp.ret. by rewrite insert_id.
Qed.

Lemma nextLevel_spec (σ : Imp.store) (cur : nat) (xs : list string) :
  σ !! cur = Some (Some <$> xs) ->
  match buildNextLevel xs with
  | Returns ys =>
      exists next, σ !! next = None /\
        Imp.nextLevel cur σ = (Returns next, <[next := Some <$> ys]> σ)
  | Throws e => (Imp.nextLevel cur σ).1 = Throws e
  | OutOfFuel => (Imp.nextLevel cur σ).1 = OutOfFuel
  end.
Proof.
  intros Hcur. unfold Imp.nextLevel.
  rewrite (bind_returns _ _ σ σ _ (array_length_at σ cur _ Hcur)), length_fmap.
  set (next := fresh (dom σ)).
  assert (Hfresh : σ !! next = None) by apply not_elem_of_dom_1, is_fresh.
  assert (Hne : cur <> next) by (intros ->; congruence).
  rewrite (bind_returns _ _ σ (<[next := []]> σ) next) by reflexivity.
  pose proof (forPairs_spec cur next xs (S (length xs)) 0
                (<[next := []]> σ) [] Hne) as Hfor.
  rewrite lookup_insert_ne, lookup_insert_eq in Hfor by done.
  specialize (Hfor Hcur eq_refl ltac:(lia)). rewrite drop_0 in Hfor.
  destruct (buildNextLevel xs) as [ys|e|].
  - exists next. split; [done|].
    rewrite (bind_returns _ _ _ _ _ Hfor). unfold Imp.ret.
    by rewrite insert_insert_eq.
  - rewrite bind_fails; rewrite Hfor; done.
  - rewrite bind_fails; rewrite Hfor; done.
Qed.

Lemma buildLoop_spec (fuel : nat) :
  forall (σ : Imp.store) (cur : nat) (xs : list string),
  σ !! cur = Some (Some <$> xs) ->
  match buildLoop fuel xs with
  | Returns ys =>
      exists last σ', Imp.buildLoop fuel cur σ = (Returns last, σ') /\
                      σ' !! last = Some (Some <$> ys)
  | Throws e => (Imp.buildLoop fuel cur σ).1 = Throws e
  | OutOfFuel => (Imp.buildLoop fuel cur σ).1 = OutOfFuel
  end.
Proof.
  induction fuel as [|fuel IH]; intros σ cur xs Hcur; [reflexivity|].
  cbn [buildLoop Imp.buildLoop].
  rewrite (bind_returns _ _ σ σ _ (array_length_at σ cur _ Hcur)), length_fmap.
  destruct (1 <? length xs); [|by exists cur, σ].
  pose proof (nextLevel_spec σ cur xs Hcur) as Hnext.
  destruct (buildNextLevel xs) as [ys|e|]; cbn [mbind outcome_bind].
  - destruct Hnext as (next & _ & Hnext).
    rewrite (bind_returns _ _ _ _ _ Hnext).
    apply IH. by rewrite lookup_insert_eq.
  - rewrite bind_fails; rewrite Hnext; done.
  - rewrite bind_fails; rewrite Hnext; done.
Qed.

(** The store version of [buildMerkleTree] returns, or throws, what the
    list version does on the elements of the array it is given. *)
Lemma buildMerkleTree_refines (σ : Imp.store) (proofHashes : nat)
    (leaves : list string) :
  σ !! proofHashes = Some (Some <$> leaves) ->
  (Imp.buildMerkleTree proofHashes σ).1 = buildMerkleTree leaves.
Proof.
  intros Hin. unfold Imp.buildMerkleTree, buildMerkleTree.
  rewrite (bind_returns _ _ σ σ _ (array_length_at σ proofHashes _ Hin)), length_fmap.
  destruct (length leaves =? 0); [reflexivity|].
  destruct (length leaves =? 1).
  { rewrite (array_get_at σ proofHashes 0 _ Hin). cbn [fst].
    by rewrite get_defined. }
  rewrite (bind_returns _ _ σ σ _ (read_array_at σ proofHashes _ Hin)).
  set (cur := fresh (dom σ)).
  rewrite (bind_returns _ _ σ (<[cur := Some <$> leaves]> σ) cur) by reflexivity.
  pose proof (buildLoop_spec (length leaves) (<[cur := Some <$> leaves]> σ)
                cur leaves) as Hloop.
  rewrite lookup_insert_eq in Hloop. specialize (Hloop eq_refl).
  destruct (buildLoop (length leaves) leaves) as [ys|e|]; cbn [mbind outcome_bind].
  - destruct Hloop as (last & σ' & Hrun & Hlast).
    rewrite (bind_returns _ _ _ _ _ Hrun).
    rewrite (array_get_at σ' last 0 _ Hlast). cbn [fst].
    by rewrite get_defined.
  - rewrite bind_fails; rewrite Hloop; done.
  - rewrite bind_fails; rewrite Hloop; done.
Qed.

(** The sibling step on the store: [path] becomes what [pushSibling]
    says, nothing else changes. *)
Lemma pushSibling_spec (σ : Imp.store) (cur path index : nat)
    (xs : list string) (acc : list (option string)) :
  σ !! cur = Some (Some <$> xs) -> σ !! path = Some acc ->
  (if index mod 2 =? 0 then
     if index + 1 <? length xs then
       Imp.bind (Imp.array_get cur (index + 1)) (fun sibling =>
         Imp.array_push path sibling)
     else Imp.ret tt
   else
     Imp.bind (Imp.array_get cur (index - 1)) (fun sibling =>
       Imp.array_push path sibling)) σ
  = (Returns tt, <[path := pushSibling xs index acc]> σ).
Proof.
  intros Hcur Hpath. unfold pushSibling.
  destruct (index mod 2 =? 0); [destruct (index + 1 <? length xs)|].
  - rewrite (bind_returns _ _ σ σ _ (array_get_at σ cur _ _ Hcur)), get_defined.
    by rewrite (array_push_at σ path _ _ Hpath).
  - unfold Imp.ret. by rewrite insert_id.
  - rewrite (bind_returns _ _ σ σ _ (array_get_at σ cur _ _ Hcur)), get_defined.
    by rewrite (array_push_at σ path _ _ Hpath).
Qed.

Lemma generateLoop_spec (fuel : nat) :
  forall (σ : Imp.store) (cur path index : nat)
         (xs : list string) (acc : list (option string)),
  cur <> path ->
  σ !! cur = Some (Some <$> xs) -> σ !! path = Some acc ->
  match generateLoop fuel xs index acc with
  | Returns acc' =>
      exists σ', Imp.generateLoop fuel cur index path σ = (Returns tt, σ') /\
                 σ' !! path = Some acc'
  | Throws e => (Imp.generateLoop fuel cur index path σ).1 = Throws e
  | OutOfFuel => (Imp.generateLoop fuel cur index path σ).1 = OutOfFuel
  end.
Proof.
  induction fuel as [|fuel IH]; intros σ cur path index xs acc Hne Hcur Hpath;
    [reflexivity|].
  cbn [generateLoop Imp.generateLoop].
  rewrite (bind_returns _ _ σ σ _ (array_length_at σ cur _ Hcur)), length_fmap.
  destruct (1 <? length xs); [|by exists σ].
  rewrite (bind_returns _ _ _ _ _ (pushSibling_spec σ cur path index xs acc Hcur Hpath)).
  set (σ1 := <[path := pushSibling xs index acc]> σ).
  assert (Hcur1 : σ1 !! cur = Some (Some <$> xs))
    by (unfold σ1; by rewrite lookup_insert_ne).
  assert (Hpath1 : σ1 !! path = Some (pushSibling xs index acc))
    by (unfold σ1; by rewrite lookup_insert_eq).
  pose proof (nextLevel_spec σ1 cur xs Hcur1) as Hnext.
  destruct (buildNextLevel xs) as [ys|e|]; cbn [mbind outcome_bind].
  - destruct Hnext as (next & Hfresh & Hnext).
    rewrite (bind_returns _ _ _ _ _ Hnext).
    assert (Hne' : next <> path) by (intros ->; congruence).
    apply IH; [done | by rewrite lookup_insert_eq | by rewrite lookup_insert_ne].
  - rewrite bind_fails; rewrite Hnext; done.
  - rewrite bind_fails; rewrite Hnext; done.
Qed.

(** The store version of [generateMerkleProof] returns, or throws, what
    the list version does; the array its result refers to holds the path. *)
Lemma generateMerkleProof_refines (σ : Imp.store) (proofHashes : nat)
    (leaves : list string) (leafIndex : nat) :
  σ !! proofHashes = Some (Some <$> leaves) ->
  match generateMerkleProof leaves leafIndex with
  | Returns proof =>
      exists ref σ',
        Imp.generateMerkleProof proofHashes leafIndex σ = (Returns ref, σ') /\
        σ' !! Imp.path_ref ref = Some (path proof) /\
        Imp.index_of ref = index proof /\ Imp.leaf_of ref = leaf proof
  | Throws e => (Imp.generateMerkleProof proofHashes leafIndex σ).1 = Throws e
  | OutOfFuel => (Imp.generateMerkleProof proofHashes leafIndex σ).1 = OutOfFuel
  end.
Proof.
  intros Hin. unfold Imp.generateMerkleProof, generateMerkleProof.
  rewrite (bind_returns _ _ σ σ _ (array_length_at σ proofHashes _ Hin)), length_fmap.
  destruct (length leaves <=? leafIndex); [reflexivity|].
  set (pathArr := fresh (dom σ)).
  assert (Hfresh : σ !! pathArr = None) by apply not_elem_of_dom_1, is_fresh.
  assert (Hne : proofHashes <> pathArr) by (intros ->; congruence).
  rewrite (bind_returns _ _ σ (<[pathArr := []]> σ) pathArr) by reflexivity.
  set (σ1 := <[pathArr := []]> σ).
  assert (Hin1 : σ1 !! proofHashes = Some (Some <$> leaves))
    by (unfold σ1; by rewrite lookup_insert_ne).
  rewrite (bind_returns _ _ σ1 σ1 _ (read_array_at σ1 proofHashes _ Hin1)).
  set (cur := fresh (dom σ1)).
  assert (Hfresh1 : σ1 !! cur = None) by apply not_elem_of_dom_1, is_fresh.
  assert (Hne1 : cur <> pathArr)
    by (intros Heq; rewrite Heq in Hfresh1; unfold σ1 in Hfresh1;
        by rewrite lookup_insert_eq in Hfresh1).
  assert (Hne2 : cur <> proofHashes) by (intros Heq; rewrite Heq in Hfresh1; congruence).
  rewrite (bind_returns _ _ σ1 (<[cur := Some <$> leaves]> σ1) cur) by reflexivity.
  set (σ2 := <[cur := Some <$> leaves]> σ1).
  pose proof (generateLoop_spec (length leaves) σ2 cur pathArr leafIndex leaves []
                Hne1) as Hloop.
  unfold σ2 in Hloop at 1 2.
  rewrite lookup_insert_eq, lookup_insert_ne in Hloop by done.
  unfold σ1 in Hloop at 1. rewrite lookup_insert_eq in Hloop.
  specialize (Hloop eq_refl eq_refl).
  destruct (generateLoop (length leaves) leaves leafIndex []) as [acc|e|];
    cbn [mbind outcome_bind].
  - destruct Hloop as (σ' & Hrun & Hpath).
    rewrite (bind_returns _ _ _ _ _ Hrun).
    assert (Hsub : σ ⊆ σ2).
    { transitivity σ1; [by apply insert_subseteq | by apply insert_subseteq]. }
    destruct (keeps_generateLoop σ (length leaves) cur leafIndex pathArr Hfresh σ2 Hsub)
      as [Hkept _].
    rewrite Hrun in Hkept. cbn [snd] in Hkept.
    assert (Hin' : σ' !! proofHashes = Some (Some <$> leaves))
      by exact (lookup_weaken _ _ _ _ Hin Hkept).
    rewrite (bind_returns _ _ σ' σ' _ (array_get_at σ' proofHashes leafIndex _ Hin')).
    rewrite get_defined. unfold Imp.ret.
    eexists _, σ'. split; [reflexivity|]. cbn. done.
  - rewrite bind_fails; rewrite Hloop; done.
  - rewrite bind_fails; rewrite Hloop; done.
Qed.

End Refinement.

(** ** The input array: claim *)

(** C10.  Neither [buildMerkleTree] nor [generateMerkleProof] changes the
    array it is given: whatever the call does (return or throw), the array
    at [proofHashes] holds afterwards the elements it held before, and so
    does every other array that existed before the call. *)
Theorem tree_methods_keep_input
    (σ : Imp.store) (proofHashes : nat) (leaves : list (option string))
    (leafIndex : nat) :
  σ !! proofHashes = Some leaves ->
  ((Imp.buildMerkleTree proofHashes σ).2 !! proofHashes = Some leaves /\
   σ ⊆ (Imp.buildMerkleTree proofHashes σ).2) /\
  ((Imp.generateMerkleProof proofHashes leafIndex σ).2 !! proofHashes = Some leaves /\
   σ ⊆ (Imp.generateMerkleProof proofHashes leafIndex σ).2).
Proof.
  intros Hin.
  destruct (keeps_buildMerkleTree σ proofHashes σ) as [Hbuild _]; [done|].
  destruct (keeps_generateMerkleProof σ proofHashes leafIndex σ) as [Hgen _]; [done|].
  split.
  - split; [exact (lookup_weaken _ _ _ _ Hin Hbuild) | exact Hbuild].
  - split; [exact (lookup_weaken _ _ _ _ Hin Hgen) | exact Hgen].
Qed.

Lemma tree_methods_keep_input_witness :
  let σ : Imp.store := {[ 7 := [Some proof1; Some proof2; Some proof3] ]} in
  σ !! 7 = Some [Some proof1; Some proof2; Some proof3] /\
  (Imp.buildMerkleTree 7 σ).2 !! 7 = Some [Some proof1; Some proof2; Some proof3] /\
  (Imp.generateMerkleProof 7 2 σ).2 !! 7 = Some [Some proof1; Some proof2; Some proof3].
Proof.
  intros σ.
  assert (Hin : σ !! 7 = Some [Some proof1; Some proof2; Some proof3])
    by (vm_compute; reflexivity).
  split; [exact Hin|].
  pose proof (tree_methods_keep_input σ 7 _ 2 Hin) as [[Hbuild _] [Hgen _]].
  split; [exact Hbuild | exact Hgen].
Defined.

(** The same run, evaluated: the root, and the untouched input. *)
Example buildMerkleTree_on_store :
  let σ : Imp.store := {[ 7 := [Some proof1; Some proof2; Some proof3] ]} in
  (Imp.buildMerkleTree 7 σ).1
  = Returns (Some (hashPair (hashPair proof1 proof2) proof3)) /\
  (Imp.buildMerkleTree 7 σ).2 !! 7 = Some [Some proof1; Some proof2; Some proof3].
Proof. vm_compute. auto. Qed.

(** ** The round trip, where it holds and where it does not *)

(** For any three 32-byte hashes the path generated for the promoted leaf
    verifies only if [hash(c ++ hash(a ++ b))] happens to be the root. *)
Lemma promoted_leaf_round_trip (a b c : string) :
  valid_hash a -> valid_hash b -> valid_hash c ->
  generateMerkleProof [a; b; c] 2
  = Returns {| path := [Some (hashPair a b)]; index := 2; leaf := Some c |} /\
  verifyMerkleProof [hashPair a b] 2 c (hashPair (hashPair a b) c)
  = Returns (String.eqb (hashPair c (hashPair a b)) (hashPair (hashPair a b) c)).
Proof.
  intros Ha Hb Hc.
  assert (Hab : valid_hash (hashPair a b)) by apply valid_hashPair.
  split.
  - unfold generateMerkleProof. cbn [length Nat.leb generateLoop Nat.ltb].
    rewrite (buildNextLevel_valid [a; b; c]) by (repeat apply Forall_cons_2; auto).
    cbn [mbind outcome_bind pairUp length Nat.leb].
    rewrite (buildNextLevel_valid [hashPair a b; c])
      by (repeat apply Forall_cons_2; auto).
    reflexivity.
  - unfold verifyMerkleProof.
    rewrite verifyLoop_valid by (repeat apply Forall_cons_2; auto).
    reflexivity.
Qed.

(** With four leaves, the case of the repository's test, every generated
    path verifies. *)
Example four_leaves_round_trip :
  forallb (fun i =>
    match buildMerkleTree [proof1; proof2; proof3; proof4],
          generateMerkleProof [proof1; proof2; proof3; proof4] i with
    | Returns (Some root), Returns {| path := p; index := k; leaf := Some l |} =>
        match verifyMerkleProof (omap id p) k l root with
        | Returns ok => ok
        | _ => false
        end
    | _, _ => false
    end) [0; 1; 2; 3] = true.
Proof. vm_compute. reflexivity. Qed.

(** * Further properties of the commitment tree *)

Section RoundTrip.

Lemma pairUp_lookup (xs : list string) :
  forall j a b,
  xs !! (2 * j) = Some a -> xs !! (2 * j + 1) = Some b ->
  pairUp xs !! j = Some (hashPair a b).
Proof.
  induction xs as [| x | x y l IH] using pair_ind; intros j a b Ha Hb.
  - done.
  - destruct j; [done|]. replace (2 * S j) with (S (S (2 * j))) in Ha by lia. done.
  - destruct j as [|j].
    + cbn in Ha, Hb. injection Ha as ->. injection Hb as ->. reflexivity.
    + replace (2 * S j) with (S (S (2 * j))) in Ha by lia.
      replace (2 * S j + 1) with (S (S (2 * j + 1))) in Hb by lia.
      cbn [pairUp]. cbn in Ha, Hb. cbn. by apply IH.
Qed.

Lemma half_pow2 (k : nat) : (2 ^ S k + 1) / 2 = 2 ^ k.
Proof.
  rewrite Nat.pow_succ_r'. replace (2 * 2 ^ k + 1) with (1 + 2 ^ k * 2) by lia.
  rewrite Nat.div_add by lia. reflexivity.
Qed.

Lemma parity_cases (i : nat) :
  (i mod 2 = 0 /\ i = 2 * (i / 2)) \/ (i mod 2 = 1 /\ i = 2 * (i / 2) + 1).
Proof.
  pose proof (Nat.div_mod_eq i 2) as Hdm.
  pose proof (Nat.mod_upper_bound i 2 ltac:(lia)) as Hr.
  destruct (i mod 2) as [|[|r]]; [left | right | ]; lia.
Qed.

(** In a level whose length is a power of two nothing is ever promoted:
    the loop of [generateMerkleProof] records one sibling per level, and
    folding the leaf through them is what the loop of [buildMerkleTree]
    arrives at. *)
Lemma generate_build_pow2 (k : nat) :
  forall (xs : list string) (i : nat) (h : string) (acc : list string) (fuel : nat),
  Forall valid_hash xs -> length xs = 2 ^ k -> xs !! i = Some h ->
  length xs <= fuel ->
  exists sibs,
    Forall valid_hash sibs /\ length sibs = k /\
    generateLoop fuel xs i (map Some acc) = Returns (map Some (acc ++ sibs)) /\
    buildLoop fuel xs = Returns [foldPath sibs i h].
Proof.
  induction k as [|k IH]; intros xs i h acc fuel Hv Hlen Hi Hfuel.
  - destruct xs as [|x [|? ?]]; try discriminate.
    destruct i; [|done]. injection Hi as ->.
    destruct fuel; [cbn in Hfuel; lia|].
    exists []. rewrite app_nil_r. by repeat split.
  - assert (Hpos : 1 <= 2 ^ k) by (apply Nat.neq_0_lt_0, Nat.pow_nonzero; lia).
    pose proof (Nat.pow_succ_r' 2 k) as Hpow.
    assert (Hlen2 : 2 <= length xs) by lia.
    destruct fuel as [|fuel]; [lia|].
    assert (Hilt : i < length xs) by (eapply lookup_lt_Some; eauto).
    assert (Hnext : length (pairUp xs) = 2 ^ k)
      by (by rewrite length_pairUp, Hlen, half_pow2).
    assert (Hvn : Forall valid_hash (pairUp xs)) by (by apply Forall_valid_pairUp).
    assert (Hcmp : (1 <? length xs) = true) by (apply Nat.ltb_lt; lia).
    cbn [generateLoop buildLoop]. rewrite Hcmp.
    rewrite (buildNextLevel_valid xs Hv). cbn [mbind outcome_bind].
    unfold pushSibling.
    destruct (parity_cases i) as [[Hpar Hi2]|[Hpar Hi2]]; rewrite Hpar.
    + assert (Hi1 : i + 1 < length xs).
      { lia. }
      destruct (lookup_lt_is_Some_2 xs (i + 1) Hi1) as [s Hs].
      apply Nat.ltb_lt in Hi1. cbn [Nat.eqb]. rewrite Hi1, Hs.
      assert (Hup : pairUp xs !! (i / 2) = Some (hashPair h s)).
      { apply pairUp_lookup; [by rewrite <- Hi2 | rewrite <- Hi2; exact Hs]. }
      destruct (IH (pairUp xs) (i / 2) (hashPair h s) (acc ++ [s]) fuel
                  Hvn Hnext Hup ltac:(lia))
        as (sibs & Hvs & Hls & Hgen & Hbuild).
      exists (s :: sibs). split.
      { apply Forall_cons_2; [exact (Forall_lookup_1 _ _ _ _ Hv Hs) | done]. }
      split; [cbn; lia|]. split.
      * change (map Some acc ++ [Some s]) with (map Some acc ++ map Some [s]).
        rewrite <- map_app, Hgen. by rewrite <- app_assoc.
      * rewrite Hbuild. cbn [foldPath]. rewrite even_mod2, Hpar. reflexivity.
    +       assert (Hi1 : i - 1 < length xs) by lia.
      destruct (lookup_lt_is_Some_2 xs (i - 1) Hi1) as [s Hs].
      cbn [Nat.eqb]. rewrite Hs.
      assert (Hup : pairUp xs !! (i / 2) = Some (hashPair s h)).
      { apply pairUp_lookup.
        - replace (2 * (i / 2)) with (i - 1) by lia. exact Hs.
        - rewrite <- Hi2. exact Hi. }
      destruct (IH (pairUp xs) (i / 2) (hashPair s h) (acc ++ [s]) fuel
                  Hvn Hnext Hup ltac:(lia))
        as (sibs & Hvs & Hls & Hgen & Hbuild).
      exists (s :: sibs). split.
      { apply Forall_cons_2; [exact (Forall_lookup_1 _ _ _ _ Hv Hs) | done]. }
      split; [cbn; lia|]. split.
      * change (map Some acc ++ [Some s]) with (map Some acc ++ map Some [s]).
        rewrite <- map_app, Hgen. by rewrite <- app_assoc.
      * rewrite Hbuild. cbn [foldPath]. rewrite even_mod2, Hpar. reflexivity.
Qed.

(** X1.  For a list of 32-byte hashes whose length is a power of two, and
    every index in range, the path [generateMerkleProof] returns has one
    sibling per level, none [undefined], and [verifyMerkleProof] accepts
    it against the root [buildMerkleTree] builds from the same list. *)
Theorem round_trip_power_of_two (leaves : list string) (k i : nat) :
  Forall valid_hash leaves -> length leaves = 2 ^ k -> i < length leaves ->
  exists root h siblings,
    buildMerkleTree leaves = Returns (Some root) /\
    generateMerkleProof leaves i
    = Returns {| path := map Some siblings; index := i; leaf := Some h |} /\
    length siblings = k /\
    verifyMerkleProof siblings i h root = Returns true.
Proof.
  intros Hv Hlen Hi.
  destruct (lookup_lt_is_Some_2 leaves i Hi) as [h Hh].
  destruct (generate_build_pow2 k leaves i h [] (length leaves) Hv Hlen Hh (le_n _))
    as (sibs & Hvs & Hls & Hgen & Hbuild).
  assert (Hhv : valid_hash h) by exact (Forall_lookup_1 _ _ _ _ Hv Hh).
  exists (foldPath sibs i h), h, sibs.
  split; [|split; [|split; [exact Hls|]]].
  - unfold buildMerkleTree.
    destruct leaves as [|a [|b rest]]; [done | |].
    + destruct i; [|cbn in Hi; lia]. cbn in Hh. injection Hh as ->.
      destruct k; [|pose proof (Nat.pow_succ_r' 2 k);
                     pose proof (Nat.pow_nonzero 2 k); cbn [length] in Hlen; lia].
      destruct sibs; [reflexivity | discriminate].
    + change (length (a :: b :: rest) =? 0) with false.
      change (length (a :: b :: rest) =? 1) with false. cbv iota.
      by rewrite Hbuild.
  - unfold generateMerkleProof.
    assert (Hcmp : (length leaves <=? i) = false) by (apply Nat.leb_gt; lia).
    rewrite Hcmp. change (@nil (option string)) with (map Some (@nil string)).
    rewrite Hgen, Hh. reflexivity.
  - unfold verifyMerkleProof. rewrite (verifyLoop_valid sibs i h Hvs Hhv).
    cbn [mbind outcome_bind]. by rewrite String.eqb_refl.
Qed.

Lemma round_trip_power_of_two_witness :
  Forall valid_hash [proof1; proof2; proof3; proof4] /\
  length [proof1; proof2; proof3; proof4] = 2 ^ 2 /\
  3 < length [proof1; proof2; proof3; proof4] /\
  exists root h siblings,
    buildMerkleTree [proof1; proof2; proof3; proof4] = Returns (Some root) /\
    generateMerkleProof [proof1; proof2; proof3; proof4] 3
    = Returns {| path := map Some siblings; index := 3; leaf := Some h |} /\
    length siblings = 2 /\
    verifyMerkleProof siblings 3 h root = Returns true.
Proof.
  assert (Hv : Forall valid_hash [proof1; proof2; proof3; proof4]) by check_hashes.
  assert (Hlen : length [proof1; proof2; proof3; proof4] = 2 ^ 2) by reflexivity.
  assert (Hi : 3 < length [proof1; proof2; proof3; proof4]) by (simpl; lia).
  split; [exact Hv|]. split; [exact Hlen|]. split; [exact Hi|].
  exact (round_trip_power_of_two _ 2 3 Hv Hlen Hi).
Defined.

End RoundTrip.

(** * The path [generateMerkleProof] returns *)

Section InclusionPath.

(** One pass of the loop records the sibling the specification names. *)
Lemma pushSibling_siblingOf (level : list string) (index : nat) (acc : list string) :
  index < length level ->
  pushSibling level index (map Some acc) = map Some (acc ++ siblingOf level index).
Proof.
  intros Hi. unfold pushSibling, siblingOf. rewrite even_mod2.
  destruct (index mod 2 =? 0) eqn:Hpar.
  - destruct (index + 1 <? length level) eqn:Hnext.
    + apply Nat.ltb_lt in Hnext.
      destruct (lookup_lt_is_Some_2 level (index + 1) Hnext) as [x Hx].
      rewrite Hx, map_app. reflexivity.
    + apply Nat.ltb_ge in Hnext.
      rewrite (lookup_ge_None_2 level (index + 1) Hnext).
      cbn [option_list option_rect]. by rewrite app_nil_r.
  - assert (Hprev : index - 1 < length level) by lia.
    destruct (lookup_lt_is_Some_2 level (index - 1) Hprev) as [x Hx].
    rewrite Hx, map_app. reflexivity.
Qed.

Lemma Forall_valid_siblingOf (level : list string) (index : nat) :
  Forall valid_hash level -> Forall valid_hash (siblingOf level index).
Proof.
  intros Hv. unfold siblingOf.
  destruct (Nat.even index).
  - destruct (level !! (index + 1)) as [x|] eqn:Hx; cbn [option_list option_rect];
      [|apply Forall_nil_2].
    apply Forall_cons_2; [exact (Forall_lookup_1 _ _ _ _ Hv Hx) | apply Forall_nil_2].
  - destruct (level !! (index - 1)) as [x|] eqn:Hx; cbn [option_list option_rect];
      [|apply Forall_nil_2].
    apply Forall_cons_2; [exact (Forall_lookup_1 _ _ _ _ Hv Hx) | apply Forall_nil_2].
Qed.

Lemma Forall_valid_siblingWalk (levels : nat) :
  forall level index,
  Forall valid_hash level -> Forall valid_hash (siblingWalk levels level index).
Proof.
  induction levels as [|levels IH]; intros level index Hv; [apply Forall_nil_2|].
  cbn [siblingWalk]. destruct (1 <? length level); [|apply Forall_nil_2].
  apply Forall_app. split.
  - by apply Forall_valid_siblingOf.
  - apply IH. by apply Forall_valid_pairUp.
Qed.

(** The loop of [generateMerkleProof] records the siblings of the walk
    the specification describes, level after level. *)
Lemma generateLoop_walk (fuel : nat) :
  forall level index acc,
  Forall valid_hash level -> index < length level -> length level <= fuel ->
  generateLoop fuel level index (map Some acc)
  = Returns (map Some (acc ++ siblingWalk fuel level index)).
Proof.
  induction fuel as [|fuel IH]; intros level index acc Hv Hi Hlen; [lia|].
  cbn [generateLoop siblingWalk]. destruct (1 <? length level) eqn:Hcmp.
  - apply Nat.ltb_lt in Hcmp.
    rewrite (pushSibling_siblingOf level index acc Hi).
    rewrite (buildNextLevel_valid level Hv). cbn [mbind outcome_bind].
    rewrite (IH (pairUp level) (index / 2) (acc ++ siblingOf level index)).
    + by rewrite app_assoc.
    + by apply Forall_valid_pairUp.
    + rewrite length_pairUp. by apply half_lt_half_up.
    + rewrite length_pairUp. pose proof (half_up_lt (length level)). lia.
  - by rewrite app_nil_r.
Qed.

(** The unpaired last node of a level is the last node of the next. *)
Lemma pairUp_lookup_last (xs : list string) :
  forall j a,
  xs !! (2 * j) = Some a -> length xs = 2 * j + 1 ->
  pairUp xs !! j = Some a.
Proof.
  induction xs as [| x | x y l IH] using pair_ind; intros j a Ha Hlen.
  - done.
  - destruct j; [exact Ha | cbn [length] in Hlen; lia].
  - destruct j as [|j]; [cbn [length] in Hlen; lia|].
    replace (2 * S j) with (S (S (2 * j))) in Ha by lia.
    cbn [pairUp]. cbn in Ha. cbn. apply IH; [exact Ha | cbn [length] in Hlen; lia].
Qed.

(** The siblings of the walk authenticate the node: combined with it from
    the bottom up, each on its side, they give the root the loop of
    [buildMerkleTree] arrives at.  The sides are the bits of [position];
    a level where the node is promoted has no sibling and no bit. *)
Lemma siblingWalk_authenticates (fuel : nat) :
  forall level index node,
  Forall valid_hash level -> level !! index = Some node -> length level <= fuel ->
  exists root position,
    buildLoop fuel level = Returns [root] /\
    foldPath (siblingWalk fuel level index) position node = root.
Proof.
  induction fuel as [|fuel IH]; intros level index node Hv Hnode Hlen.
  - apply lookup_lt_Some in Hnode. lia.
  - assert (Hi : index < length level) by (eapply lookup_lt_Some; eauto).
    cbn [siblingWalk]. destruct (1 <? length level) eqn:Hcmp.
    + apply Nat.ltb_lt in Hcmp. rewrite (buildLoop_step fuel level Hv Hcmp).
      assert (Hvn : Forall valid_hash (pairUp level)) by (by apply Forall_valid_pairUp).
      assert (Hfuel : length (pairUp level) <= fuel).
      { rewrite length_pairUp. pose proof (half_up_lt (length level)). lia. }
      unfold siblingOf. rewrite even_mod2.
      destruct (parity_cases index) as [[Hpar Hi2]|[Hpar Hi2]]; rewrite Hpar;
        cbn [Nat.eqb].
      * destruct (level !! (index + 1)) as [s|] eqn:Hs; cbn [option_list option_rect app].
        -- assert (Hup : pairUp level !! (index / 2) = Some (hashPair node s)).
           { apply pairUp_lookup; [by rewrite <- Hi2 | rewrite <- Hi2; exact Hs]. }
           destruct (IH (pairUp level) (index / 2) _ Hvn Hup Hfuel)
             as (root & position & Hroot & Hfold).
           exists root, (2 * position). split; [exact Hroot|].
           cbn [foldPath]. rewrite Nat.even_mul. cbn [Nat.even orb].
           replace (2 * position / 2) with position
             by (rewrite Nat.mul_comm, Nat.div_mul; lia).
           exact Hfold.
        -- apply lookup_ge_None_1 in Hs.
           assert (Hup : pairUp level !! (index / 2) = Some node).
           { apply pairUp_lookup_last; [by rewrite <- Hi2 | lia]. }
           destruct (IH (pairUp level) (index / 2) _ Hvn Hup Hfuel)
             as (root & position & Hroot & Hfold).
           by exists root, position.
      * assert (Hprev : index - 1 < length level) by lia.
        destruct (lookup_lt_is_Some_2 level (index - 1) Hprev) as [s Hs].
        rewrite Hs. cbn [option_list option_rect app].
        assert (Hup : pairUp level !! (index / 2) = Some (hashPair s node)).
        { apply pairUp_lookup.
          - replace (2 * (index / 2)) with (index - 1) by lia. exact Hs.
          - rewrite <- Hi2. exact Hnode. }
        destruct (IH (pairUp level) (index / 2) _ Hvn Hup Hfuel)
          as (root & position & Hroot & Hfold).
        exists root, (2 * position + 1). split; [exact Hroot|].
        cbn [foldPath].
        replace (Nat.even (2 * position + 1)) with false
          by (symmetry; rewrite Nat.add_comm, Nat.even_add_mul_2; reflexivity).
        replace ((2 * position + 1) / 2) with position
          by (rewrite Nat.add_comm, Nat.mul_comm, Nat.div_add; [reflexivity | lia]).
        exact Hfold.
    + apply Nat.ltb_ge in Hcmp.
      destruct level as [|x [|? ?]]; [done | | cbn [length] in Hcmp; lia].
      destruct index; [|done]. injection Hnode as ->.
      exists node, 0. split; reflexivity.
Qed.

(** C8.  [generateMerkleProof] throws "Leaf index out of bounds"
    (IndexOutOfRange) when [leafIndex >= leaves.length].  For an index in
    range over 32-byte hashes it returns an inclusion path: as siblings,
    the hashes the walk of the specification records from the leaves up
    (at an even index the node at index+1 if there is one, at an odd
    index the node at index-1), then the index it was given and
    [leaves[leafIndex]].  These siblings are the ones of the leaf in the
    tree: folded with the leaf, each on its side, they give the root
    [buildMerkleTree] builds from the same leaves. *)
Theorem generateMerkleProof_index_range (leaves : list string) (leafIndex : nat) :
  (length leaves <= leafIndex ->
   generateMerkleProof leaves leafIndex = Throws IndexOutOfRange) /\
  (leafIndex < length leaves -> Forall valid_hash leaves ->
   exists h,
     leaves !! leafIndex = Some h /\
     generateMerkleProof leaves leafIndex
     = Returns {| path := map Some (siblingPath leaves leafIndex);
                  index := leafIndex; leaf := Some h |} /\
     Forall valid_hash (siblingPath leaves leafIndex) /\
     exists root position,
       buildMerkleTree leaves = Returns (Some root) /\
       verifyMerkleProof (siblingPath leaves leafIndex) position h root
       = Returns true).
Proof.
  split.
  - intros Hle. unfold generateMerkleProof. apply Nat.leb_le in Hle. by rewrite Hle.
  - intros Hlt Hv.
    destruct (lookup_lt_is_Some_2 leaves leafIndex Hlt) as [h Hh].
    assert (Hhv : valid_hash h) by exact (Forall_lookup_1 _ _ _ _ Hv Hh).
    assert (Hvs : Forall valid_hash (siblingPath leaves leafIndex))
      by (by apply Forall_valid_siblingWalk).
    exists h. split; [exact Hh|]. split; [|split; [exact Hvs|]].
    + unfold generateMerkleProof.
      assert (Hcmp : (length leaves <=? leafIndex) = false) by (apply Nat.leb_gt; lia).
      rewrite Hcmp. change (@nil (option string)) with (map Some (@nil string)).
      rewrite (generateLoop_walk (length leaves) leaves leafIndex [] Hv Hlt (le_n _)).
      cbn [mbind outcome_bind app]. by rewrite Hh.
    + destruct (siblingWalk_authenticates (length leaves) leaves leafIndex h
                  Hv Hh (le_n _)) as (root & position & Hroot & Hfold).
      exists root, position. split.
      * unfold buildMerkleTree.
        destruct leaves as [|a [|b rest]]; [done | |].
        -- cbn in Hroot. injection Hroot as <-. reflexivity.
        -- change (length (a :: b :: rest) =? 0) with false.
           change (length (a :: b :: rest) =? 1) with false. cbv iota.
           by rewrite Hroot.
      * unfold verifyMerkleProof. fold (siblingPath leaves leafIndex) in Hfold.
        rewrite (verifyLoop_valid _ position h Hvs Hhv).
        cbn [mbind outcome_bind]. rewrite Hfold. by rewrite String.eqb_refl.
Qed.

Lemma generateMerkleProof_index_range_witness :
  (length [proof1; proof2; proof3] <= 3 /\
   generateMerkleProof [proof1; proof2; proof3] 3 = Throws IndexOutOfRange) /\
  (2 < length [proof1; proof2; proof3] /\
   Forall valid_hash [proof1; proof2; proof3] /\
   siblingPath [proof1; proof2; proof3] 2 = [hashPair proof1 proof2] /\
   exists h,
     [proof1; proof2; proof3] !! 2 = Some h /\
     generateMerkleProof [proof1; proof2; proof3] 2
     = Returns {| path := map Some (siblingPath [proof1; proof2; proof3] 2);
                  index := 2; leaf := Some h |} /\
     Forall valid_hash (siblingPath [proof1; proof2; proof3] 2) /\
     exists root position,
       buildMerkleTree [proof1; proof2; proof3] = Returns (Some root) /\
       verifyMerkleProof (siblingPath [proof1; proof2; proof3] 2) position h root
       = Returns true).
Proof.
  assert (Hle : length [proof1; proof2; proof3] <= 3) by (simpl; lia).
  assert (Hlt : 2 < length [proof1; proof2; proof3]) by (simpl; lia).
  assert (Hv : Forall valid_hash [proof1; proof2; proof3])
    by check_hashes.
  assert (Hpath : siblingPath [proof1; proof2; proof3] 2 = [hashPair proof1 proof2])
    by (vm_compute; reflexivity).
  split.
  - split; [exact Hle|].
    exact (proj1 (generateMerkleProof_index_range [proof1; proof2; proof3] 3) Hle).
  - split; [exact Hlt|]. split; [exact Hv|]. split; [exact Hpath|].
    exact (proj2 (generateMerkleProof_index_range [proof1; proof2; proof3] 2) Hlt Hv).
Defined.

End InclusionPath.

Section PathLength.

Lemma pack_bytes32_cases (s : string) :
  (exists bs, pack_bytes32 s = Returns bs) \/
  (exists reason, pack_bytes32 s = Throws (InvalidArgument reason)).
Proof.
  unfold pack_bytes32, arrayify.
  destruct (isHexString s); [|right; eexists; reflexivity].
  destruct (Nat.odd (String.length (hex_digits s))); [right; eexists; reflexivity|].
  cbn [mbind outcome_bind].
  destruct (length (bytes_of_hex (hex_digits s)) =? 32);
    [left | right]; eexists; reflexivity.
Qed.

Lemma solidityKeccak256_cases (a b : string) :
  (exists h, solidityKeccak256 a b = Returns h) \/
  (exists reason, solidityKeccak256 a b = Throws (InvalidArgument reason)).
Proof.
  unfold solidityKeccak256.
  destruct (pack_bytes32_cases a) as [[x ->]|[reason ->]];
    [|right; eexists; reflexivity].
  cbn [mbind outcome_bind].
  destruct (pack_bytes32_cases b) as [[y ->]|[reason ->]];
    [left | right]; eexists; reflexivity.
Qed.

Lemma buildNextLevel_cases (level : list string) :
  (exists next, buildNextLevel level = Returns next /\
                length next = (length level + 1) / 2) \/
  (exists reason, buildNextLevel level = Throws (InvalidArgument reason)).
Proof.
  induction level as [| a | a b l IH] using pair_ind.
  - left. by exists [].
  - left. by exists [a].
  - cbn [buildNextLevel].
    destruct (solidityKeccak256_cases a b) as [[h ->]|[reason ->]];
      [|right; eexists; reflexivity].
    cbn [mbind outcome_bind].
    destruct IH as [(next & -> & Hlen)|[reason ->]]; [|right; eexists; reflexivity].
    left. exists (h :: next). split; [reflexivity|].
    cbn [length]. rewrite Hlen.
    replace (S (S (length l)) + 1) with (length l + 1 + 1 * 2) by lia.
    rewrite Nat.div_add by lia. lia.
Qed.

Lemma length_pushSibling (level : list string) (i : nat) (acc : list (option string)) :
  length acc <= length (pushSibling level i acc) <= S (length acc).
Proof.
  unfold pushSibling.
  destruct (i mod 2 =? 0); [destruct (i + 1 <? length level)|];
    rewrite ?length_app; cbn [length]; lia.
Qed.

Lemma generateLoop_path_length (fuel : nat) :
  forall (level : list string) (i : nat) (acc p : list (option string)),
  generateLoop fuel level i acc = Returns p ->
  length acc <= length p /\
  (length level <= 1 -> p = acc) /\
  (2 <= length level -> 2 ^ (length p - length acc) <= 2 * (length level - 1)).
Proof.
  induction fuel as [|fuel IH]; intros level i acc p Hrun; [discriminate|].
  cbn [generateLoop] in Hrun. destruct (1 <? length level) eqn:Hcmp.
  - apply Nat.ltb_lt in Hcmp.
    destruct (buildNextLevel_cases level) as [(next & Hnext & Hlen)|[reason Hthrow]];
      [|rewrite Hthrow in Hrun; discriminate].
    rewrite Hnext in Hrun. cbn [mbind outcome_bind] in Hrun.
    destruct (IH _ _ _ _ Hrun) as (Hge & Hone & Hmany).
    pose proof (length_pushSibling level i acc) as Hpush.
    split; [lia|]. split; [lia|]. intros _.
    assert (Hhalf : 2 * length next <= length level + 1).
    { rewrite Hlen. pose proof (Nat.div_mod_eq (length level + 1) 2). lia. }
    destruct (decide (length next <= 1)) as [Hsmall|Hbig].
    + rewrite (Hone Hsmall).
      assert (Hexp : length (pushSibling level i acc) - length acc <= 1) by lia.
      transitivity (2 ^ 1); [apply Nat.pow_le_mono_r; lia | cbn; lia].
    + specialize (Hmany ltac:(lia)).
      transitivity (2 ^ S (length p - length (pushSibling level i acc)));
        [apply Nat.pow_le_mono_r; lia|].
      rewrite Nat.pow_succ_r'. lia.
  - apply Nat.ltb_ge in Hcmp. injection Hrun as <-.
    split; [lia|]. split; [done|]. lia.
Qed.

(** X2.  A path returned by [generateMerkleProof] has at most
    ceil(log2 n) siblings, n the number of leaves. *)
Theorem generateMerkleProof_path_length
    (leaves : list string) (leafIndex : nat) (proof : MerkleProof) :
  generateMerkleProof leaves leafIndex = Returns proof ->
  length (path proof) <= Nat.log2_up (length leaves).
Proof.
  unfold generateMerkleProof. destruct (length leaves <=? leafIndex); [discriminate|].
  destruct (generateLoop (length leaves) leaves leafIndex []) as [p| |] eqn:Hrun;
    try discriminate.
  cbn [mbind outcome_bind]. intros [= <-]. cbn [path].
  destruct (generateLoop_path_length _ _ _ _ _ Hrun) as (_ & Hone & Hmany).
  destruct (decide (length leaves <= 1)) as [Hsmall|Hbig].
  - rewrite (Hone Hsmall). cbn. lia.
  - specialize (Hmany ltac:(lia)). cbn [length] in Hmany.
    rewrite Nat.sub_0_r in Hmany.
    destruct (length p) as [|m]; [lia|].
    rewrite Nat.pow_succ_r' in Hmany.
    apply Nat.le_succ_l, Nat.log2_up_lt_pow2; lia.
Qed.

Lemma generateMerkleProof_path_length_witness :
  exists proof,
    generateMerkleProof [proof1; proof2; proof3] 1 = Returns proof /\
    length (path proof) <= Nat.log2_up (length [proof1; proof2; proof3]).
Proof.
  assert (Hrun : generateMerkleProof [proof1; proof2; proof3] 1
                 = Returns {| path := [Some proof1; Some proof3];
                              index := 1; leaf := Some proof2 |})
    by (vm_compute; reflexivity).
  eexists. split; [exact Hrun|].
  exact (generateMerkleProof_path_length _ _ _ Hrun).
Defined.

End PathLength.

Section Validation.

Lemma pack_bytes32_inv (s : string) (bs : list byte) :
  pack_bytes32 s = Returns bs -> valid_hash s.
Proof.
  unfold pack_bytes32, arrayify, valid_hash, is_bytes32.
  destruct (isHexString s) eqn:Hhex; [|discriminate].
  destruct (Nat.odd (String.length (hex_digits s))) eqn:Hodd; [discriminate|].
  cbn [mbind outcome_bind].
  destruct (length (bytes_of_hex (hex_digits s)) =? 32) eqn:Hlen; [|discriminate].
  intros _. apply Nat.eqb_eq in Hlen. rewrite length_bytes_of_hex in Hlen.
  pose proof (Nat.div2_odd (String.length (hex_digits s))) as Hdiv.
  rewrite Hodd, Hlen in Hdiv. cbn in Hdiv.
  destruct s as [|c1 [|c2 digits]]; try discriminate.
  cbn [hex_digits] in Hdiv. cbn [String.length andb]. by rewrite Hdiv.
Qed.

Lemma solidityKeccak256_inv (a b h : string) :
  solidityKeccak256 a b = Returns h -> valid_hash a /\ valid_hash b.
Proof.
  unfold solidityKeccak256.
  destruct (pack_bytes32 a) as [x| |] eqn:Ha; try discriminate.
  destruct (pack_bytes32 b) as [y| |] eqn:Hb; try discriminate.
  intros _. split; eapply pack_bytes32_inv; eauto.
Qed.

(** An element that is not a hash survives a level only by promotion. *)
Lemma buildNextLevel_keeps_invalid (level next : list string) :
  buildNextLevel level = Returns next ->
  ~ Forall valid_hash level -> ~ Forall valid_hash next.
Proof.
  revert next. induction level as [| a | a b l IH] using pair_ind; intros next Hrun Hbad.
  - by destruct Hbad.
  - by injection Hrun as <-.
  - cbn [buildNextLevel] in Hrun.
    destruct (solidityKeccak256 a b) as [h| |] eqn:Hh; try discriminate.
    destruct (solidityKeccak256_inv a b h Hh) as [Ha Hb].
    cbn [mbind outcome_bind] in Hrun.
    destruct (buildNextLevel l) as [nl| |] eqn:Hl; try discriminate.
    injection Hrun as <-. intros Hall.
    apply (IH nl eq_refl); [|by inversion Hall].
    intros Hl'. apply Hbad. by repeat apply Forall_cons_2.
Qed.

Lemma buildLoop_invalid (fuel : nat) :
  forall level,
  ~ Forall valid_hash level -> 2 <= length level <= fuel ->
  exists reason, buildLoop fuel level = Throws (InvalidArgument reason).
Proof.
  induction fuel as [|fuel IH]; intros level Hbad Hlen; [lia|].
  cbn [buildLoop].
  assert (Hcmp : (1 <? length level) = true) by (apply Nat.ltb_lt; lia).
  rewrite Hcmp.
  destruct (buildNextLevel_cases level) as [(next & Hnext & Hln)|[reason Hthrow]].
  - rewrite Hnext. cbn [mbind outcome_bind].
    pose proof (buildNextLevel_keeps_invalid level next Hnext Hbad) as Hbad'.
    pose proof (half_up_lt (length level) ltac:(lia)) as Hlt.
    apply IH; [done|]. split; [|lia].
    destruct next as [|x [|y rest]]; [by destruct Hbad' | | cbn; lia].
    (* a level of one element: the list had two, both hashed *)
    exfalso. cbn [length] in Hln.
    assert (Hl2 : length level = 2 \/ length level = 1).
    { pose proof (Nat.div_mod_eq (length level + 1) 2).
      pose proof (Nat.mod_upper_bound (length level + 1) 2). lia. }
    destruct level as [|a [|b [|c l]]]; cbn [length] in *; try lia.
    cbn [buildNextLevel] in Hnext.
    destruct (solidityKeccak256 a b) as [h| |] eqn:Hh; try discriminate.
    destruct (solidityKeccak256_inv a b h Hh) as [Ha Hb].
    apply Hbad. by repeat apply Forall_cons_2.
  - rewrite Hthrow. by exists reason.
Qed.

(** X3.  On a list of two or more strings [buildMerkleTree] returns a
    root exactly when every element is a 32-byte hex string; when one is
    not, it throws the argument error of ethers (every leaf is hashed
    sooner or later, a promoted one included). *)
Theorem buildMerkleTree_returns_iff_valid (proofHashes : list string) :
  2 <= length proofHashes ->
  (returns (buildMerkleTree proofHashes) <-> Forall valid_hash proofHashes) /\
  (~ Forall valid_hash proofHashes ->
   exists reason, buildMerkleTree proofHashes = Throws (InvalidArgument reason)).
Proof.
  intros Hlen.
  assert (Hthrows : ~ Forall valid_hash proofHashes ->
            exists reason, buildMerkleTree proofHashes = Throws (InvalidArgument reason)).
  { intros Hbad. unfold buildMerkleTree.
    destruct proofHashes as [|a [|b rest]]; cbn [length] in Hlen; try lia.
    change (length (a :: b :: rest) =? 0) with false.
    change (length (a :: b :: rest) =? 1) with false. cbv iota.
    destruct (buildLoop_invalid (length (a :: b :: rest)) (a :: b :: rest) Hbad)
      as [reason Hloop]; [cbn [length]; lia|].
    rewrite Hloop. by exists reason. }
  split; [|exact Hthrows]. split.
  - intros [root Hroot].
    destruct (@Forall_dec _ valid_hash
                (fun s => bool_dec (is_bytes32 s) true) proofHashes) as [Hv|Hbad];
      [done|].
    destruct (Hthrows Hbad) as [reason Hthrow]. congruence.
  - intros Hv.
    destruct (buildMerkleTree_valid proofHashes Hv) as (h & Hh & _).
    + intros ->. cbn in Hlen. lia.
    + by exists (Some h).
Qed.

Lemma buildMerkleTree_returns_iff_valid_witness :
  2 <= length [proof1; "0x1234"; proof3] /\
  ~ Forall valid_hash [proof1; "0x1234"; proof3] /\
  exists reason,
    buildMerkleTree [proof1; "0x1234"; proof3] = Throws (InvalidArgument reason).
Proof.
  assert (Hlen : 2 <= length [proof1; "0x1234"; proof3]) by (simpl; lia).
  assert (Hbad : ~ Forall valid_hash [proof1; "0x1234"; proof3]).
  { intros Hall. inversion Hall as [|? ? _ Hrest]. inversion Hrest as [|? ? Hshort _].
    vm_compute in Hshort. discriminate. }
  split; [exact Hlen|]. split; [exact Hbad|].
  exact (proj2 (buildMerkleTree_returns_iff_valid _ Hlen) Hbad).
Defined.

End Validation.

(** * Further properties of the normalizer *)

Section Normalizer.

(** X4.  A Buffer and the hex string ethers prints for it normalize to
    the same result: same commitment, same [rawData]. *)
Theorem parseGenericProof_buffer_as_hex (bs : list byte) :
  parseGenericProof (VData (JStr (hexlify bs))) = parseGenericProof (VBuffer bs) /\
  parseGenericProof (VBuffer bs)
  = Returns {| proofHash := keccak256 bs; rawData := hexlify bs; structured := None |}.
Proof.
  split; [|reflexivity].
  cbn [parseGenericProof]. unfold keccak256_string.
  by rewrite arrayify_hexlify.
Qed.




(** A "proof" value that is an object with a [toString] property of its
    own cannot be joined: the payload is refused with a TypeError, also
    when the object sits inside an array. *)
Example parseGenericProof_unjoinable :
  parseGenericProof
    (VData (JObj [("proof", JObj [("toString", JStr "a")])]))
  = Throws NotPrimitive /\
  parseGenericProof
    (VData (JObj [("proof", JArr [JStr "a"; JObj [("toString", JNull)]])]))
  = Throws NotPrimitive /\
  exists parsed,
    parseGenericProof (VData (JObj [("proof", JArr [JStr "a"; JObj []; JNull])]))
    = Returns parsed /\
    rawData parsed = "a,[object Object],".
Proof.
  split; [reflexivity|]. split; [reflexivity|].
  eexists. split; reflexivity.
Qed.

Lemma js_length_cons (c : ascii) (s : string) :
  js_length (String c s) = utf16_units (byte_of_ascii c) + js_length s.
Proof. reflexivity. Qed.

Lemma js_length_hex_of_bytes (bs : list byte) :
  js_length (hex_of_bytes bs) = 2 * length bs.
Proof.
  induction bs as [|b bs IH]; [reflexivity|].
  cbn [hex_of_bytes]. rewrite hex_of_byte_app, !js_length_cons, IH.
  assert (H1 : utf16_units (byte_of_ascii (hex_digit (Byte.to_N b / 16))) = 1)
    by (destruct b; reflexivity).
  assert (H2 : utf16_units (byte_of_ascii (hex_digit (Byte.to_N b mod 16))) = 1)
    by (destruct b; reflexivity).
  rewrite H1, H2. cbn [length]. lia.
Qed.

(** X6.  For a Buffer of n bytes [validateProofStructure] reports a valid
    structure whose [size] is 2n + 2: the length of the hex text kept as
    [rawData], not the number of bytes. *)
Theorem validateProofStructure_buffer (bs : list byte) :
  validateProofStructure (VBuffer bs)
  = Returns {| isValid := true;
               valid_proofHash := Some (keccak256 bs);
               size := Some (2 * length bs + 2);
               error := None |}.
Proof.
  unfold validateProofStructure. cbn [parseGenericProof rawData proofHash].
  rewrite hexlify_unfold, !js_length_cons, js_length_hex_of_bytes.
  do 3 f_equal. cbn. lia.
Qed.

(** X7.  [validateProofStructure] never throws: what [parseGenericProof]
    throws comes back as [isValid = false] with that error, and a payload
    outside the three supported kinds is reported with "Unsupported proof
    data format". *)
Theorem validateProofStructure_never_throws (proofData : JSValue) :
  (exists v, validateProofStructure proofData = Returns v /\
             (isValid v = true <-> returns (parseGenericProof proofData)) /\
             (forall e, parseGenericProof proofData = Throws e -> error v = Some e)) /\
  (supported proofData = false ->
   validateProofStructure proofData
   = Returns {| isValid := false; valid_proofHash := None; size := None;
                error := Some UnsupportedPayloadFormat |}).
Proof.
  split.
  - unfold validateProofStructure.
    assert (Hno : parseGenericProof proofData <> OutOfFuel).
    { destruct proofData as [| | | |bs|j]; try discriminate.
      destruct j; cbn [parseGenericProof];
        try match goal with
            | |- (if ?c then parseObject ?j else _) <> _ =>
                destruct c;
                [destruct (parseObject_cases j) as [(parsed & -> & _)| ->]|];
                discriminate
            end.
      unfold keccak256_string, arrayify.
      destruct (isHexString s); [|discriminate].
      destruct (Nat.odd _); discriminate. }
    destruct (parseGenericProof proofData) as [parsed|e|]; [| |done].
    + eexists. split; [reflexivity|]. split; [|discriminate].
      split; [by exists parsed | reflexivity].
    + eexists. split; [reflexivity|]. split; [|by intros ? [= <-]].
      split; [discriminate | by intros [? ?]].
  - intros Hsup. unfold validateProofStructure.
    by rewrite (parseGenericProof_unsupported proofData Hsup).
Qed.

Lemma validateProofStructure_never_throws_witness :
  supported (VData (JNum (int 7))) = false /\
  validateProofStructure (VData (JNum (int 7)))
  = Returns {| isValid := false; valid_proofHash := None; size := None;
               error := Some UnsupportedPayloadFormat |}.
Proof.
  assert (Hsup : supported (VData (JNum (int 7))) = false) by reflexivity.
  split; [exact Hsup|].
  exact (proj2 (validateProofStructure_never_throws (VData (JNum (int 7)))) Hsup).
Defined.

(** X8.  For a string or Buffer payload, the [proofData] that
    [standardizeProofSubmission] returns is a hex string whose keccak256,
    as the contract and ethers compute it from the bytes, is the
    [proofHash] returned with it. *)
Theorem standardizeProofSubmission_hash_of_proofData
    (proofData publicInputs verificationKey : JSValue) (fee : Z) (sub : Submission) :
  typeof proofData = "string" \/ isBuffer proofData = true ->
  standardizeProofSubmission proofData publicInputs verificationKey fee = Returns sub ->
  keccak256_string (sub_proofData sub) = Returns (sub_proofHash sub) /\
  sub_fee sub = fee /\ sub_originalData sub = proofData.
Proof.
  intros Hkind. unfold standardizeProofSubmission.
  destruct (parseGenericProof proofData) as [parsed| |] eqn:Hparse; try discriminate.
  cbn [mbind outcome_bind].
  destruct (hashOrDefault publicInputs _) as [pih| |]; try discriminate.
  destruct (hashOrDefault verificationKey _) as [vkh| |]; try discriminate.
  cbn [mbind outcome_bind]. intros [= <-].
  cbn [sub_proofData sub_proofHash sub_fee sub_originalData].
  destruct proofData as [| | | |bs|j].
  1-4: destruct Hkind; discriminate.
  - injection Hparse as <-. cbn [rawData proofHash structured].
    unfold keccak256_string. by rewrite arrayify_hexlify.
  - destruct j; try (destruct Hkind; discriminate).
    cbn [parseGenericProof] in Hparse.
    destruct (keccak256_string s) as [h| |] eqn:Hh; try discriminate.
    injection Hparse as <-. by cbn [rawData proofHash structured].
Qed.

Lemma standardizeProofSubmission_hash_of_proofData_witness :
  exists sub,
    standardizeProofSubmission (VBuffer [x12; x34]) VUndefined VUndefined 10
    = Returns sub /\
    keccak256_string (sub_proofData sub) = Returns (sub_proofHash sub).
Proof.
  assert (Hrun : standardizeProofSubmission (VBuffer [x12; x34]) VUndefined VUndefined 10
                 = Returns {| sub_proofData := "0x1234";
                              sub_proofHash := keccak256 [x12; x34];
                              sub_publicInput :=
                                keccak256 (toUtf8Bytes "default_public_input");
                              sub_verificationKey :=
                                keccak256 (toUtf8Bytes "default_verification_key");
                              sub_fee := 10;
                              sub_originalData := VBuffer [x12; x34] |})
    by (vm_compute; reflexivity).
  eexists. split; [exact Hrun|].
  exact (proj1 (standardizeProofSubmission_hash_of_proofData
                  (VBuffer [x12; x34]) VUndefined VUndefined 10 _
                  (or_intror eq_refl) Hrun)).
Defined.

End Normalizer.

(** * The contracts *)

Section ContractTree.

Lemma sol_read_at (a : list (list byte)) (i : nat) (v : list byte) :
  a !! i = Some v -> Sol.read a i = Sol.Success v.
Proof. intros H. unfold Sol.read. by rewrite H. Qed.

Lemma sol_write_end (acc : list (list byte)) (n : nat) (v : list byte) :
  Sol.write (acc ++ replicate (S n) Sol.zero32) (length acc) v
  = Sol.Success ((acc ++ [v]) ++ replicate n Sol.zero32).
Proof.
  unfold Sol.write.
  assert (Hlt : (length acc <? length (acc ++ replicate (S n) Sol.zero32)) = true).
  { apply Nat.ltb_lt. rewrite length_app, length_replicate. lia. }
  rewrite Hlt. f_equal.
  rewrite insert_app_r_alt by lia. rewrite Nat.sub_diag.
  cbn [replicate]. by rewrite <- app_assoc.
Qed.

Lemma half_of_double (n : nat) : 2 * n / 2 = n.
Proof. rewrite Nat.mul_comm. apply Nat.div_mul. lia. Qed.

(** The [for] loop of the contract, started with the first [length acc]
    slots of [nextLevel] filled, fills the rest with the pairs. *)
Lemma fillNextLevel_spec (xs : list (list byte)) (fuel : nat) :
  forall (acc : list (list byte)),
  length xs - 2 * length acc < fuel ->
  Sol.fillNextLevel fuel xs
    (acc ++ replicate ((length xs + 1) / 2 - length acc) Sol.zero32)
    (2 * length acc)
  = Sol.Success (acc ++ pairUpBytes (drop (2 * length acc) xs)).
Proof.
  induction fuel as [|fuel IH]; intros acc Hfuel; [lia|].
  pose proof (Nat.div_mod_eq (length xs + 1) 2) as Hdm.
  pose proof (Nat.mod_upper_bound (length xs + 1) 2 ltac:(lia)) as Hr.
  assert (Hstep : forall v,
    2 * length acc < length xs ->
    Sol.write (acc ++ replicate ((length xs + 1) / 2 - length acc) Sol.zero32)
      (length acc) v
    ≫= (fun nextLevel' => Sol.fillNextLevel fuel xs nextLevel' (2 * length acc + 2))
    = Sol.Success ((acc ++ [v]) ++ pairUpBytes (drop (2 * length acc + 2) xs))).
  { intros v Hi.
    replace ((length xs + 1) / 2 - length acc)
      with (S ((length xs + 1) / 2 - length (acc ++ [v])))
      by (rewrite length_app; cbn [length]; lia).
    rewrite sol_write_end. cbn [mbind Sol.result_bind].
    specialize (IH (acc ++ [v])).
    replace (2 * length (acc ++ [v])) with (2 * length acc + 2) in IH
      by (rewrite length_app; cbn [length]; lia).
    apply IH. lia. }
  cbn [Sol.fillNextLevel].
  destruct (2 * length acc <? length xs) eqn:Hi.
  - apply Nat.ltb_lt in Hi.
    destruct (lookup_lt_is_Some_2 xs (2 * length acc) Hi) as [a Ha].
    rewrite (drop_S xs a _ Ha), half_of_double.
    destruct (2 * length acc + 1 <? length xs) eqn:Hi1.
    + apply Nat.ltb_lt in Hi1.
      destruct (lookup_lt_is_Some_2 xs (2 * length acc + 1) Hi1) as [b Hb].
      replace (S (2 * length acc)) with (2 * length acc + 1) by lia.
      rewrite (drop_S xs b _ Hb).
      rewrite (sol_read_at xs _ a Ha), (sol_read_at xs _ b Hb).
      cbn [mbind Sol.result_bind pairUpBytes].
      rewrite (Hstep _ Hi).
      replace (S (2 * length acc + 1)) with (2 * length acc + 2) by lia.
      by rewrite <- app_assoc.
    + apply Nat.ltb_ge in Hi1.
      rewrite (sol_read_at xs _ a Ha).
      cbn [mbind Sol.result_bind].
      rewrite (Hstep _ Hi).
      rewrite (drop_ge xs (S (2 * length acc))) by lia.
      rewrite (drop_ge xs (2 * length acc + 2)) by lia.
      cbn [pairUpBytes]. by rewrite app_nil_r.
  - apply Nat.ltb_ge in Hi. rewrite (drop_ge xs _ Hi).
    replace ((length xs + 1) / 2 - length acc) with 0 by lia.
    reflexivity.
Qed.

Lemma sol_nextLevel_spec (xs : list (list byte)) :
  Sol.nextLevel xs = Sol.Success (pairUpBytes xs).
Proof.
  unfold Sol.nextLevel.
  pose proof (fillNextLevel_spec xs (S (length xs)) []) as H.
  cbn [length app] in H. change (2 * 0) with 0 in H.
  rewrite drop_0, !Nat.sub_0_r in H. apply H. lia.
Qed.

Lemma pair_induction {A} (P : list A -> Prop) :
  P [] -> (forall a, P [a]) -> (forall a b l, P l -> P (a :: b :: l)) ->
  forall l, P l.
Proof.
  intros Hnil Hone Hstep.
  assert (H : forall l, P l /\ forall a, P (a :: l)).
  { induction l as [|b l [IH1 IH2]]; split; auto. }
  intros l. apply H.
Qed.

Lemma length_pairUpBytes (xs : list (list byte)) :
  length (pairUpBytes xs) = (length xs + 1) / 2.
Proof.
  induction xs as [| a | a b l IH] using pair_induction; try reflexivity.
  cbn [pairUpBytes length]. rewrite IH.
  replace (S (S (length l)) + 1) with (length l + 1 + 1 * 2) by lia.
  rewrite Nat.div_add by lia. lia.
Qed.

Lemma sol_buildLoop_total (fuel : nat) :
  forall xs, xs <> [] -> length xs <= fuel ->
  exists top, Sol.buildLoop fuel xs = Sol.Success [top].
Proof.
  induction fuel as [|fuel IH]; intros xs Hne Hlen.
  - destruct xs; [done | cbn in Hlen; lia].
  - cbn [Sol.buildLoop]. destruct (1 <? length xs) eqn:Hcmp.
    + apply Nat.ltb_lt in Hcmp. rewrite sol_nextLevel_spec.
      cbn [mbind Sol.result_bind]. apply IH.
      * intros Heq. pose proof (length_pairUpBytes xs) as Hl.
        rewrite Heq in Hl. cbn [length] in Hl.
        pose proof (half_up_pos (length xs)). lia.
      * rewrite length_pairUpBytes. pose proof (half_up_lt (length xs)). lia.
    + apply Nat.ltb_ge in Hcmp.
      destruct xs as [|h [|? ?]]; [done | by exists h | cbn in Hcmp; lia].
Qed.

Lemma bytes32_hashPair (a b : string) :
  bytes32 (hashPair a b) = Sol.hash2 (bytes32 a) (bytes32 b).
Proof. unfold hashPair, keccak256. apply bytes32_hexlify. Qed.

Lemma bytes32_pairUp (level : list string) :
  bytes32 <$> pairUp level = pairUpBytes (bytes32 <$> level).
Proof.
  induction level as [| a | a b l IH] using pair_ind; try reflexivity.
  cbn [pairUp pairUpBytes fmap list_fmap].
  rewrite bytes32_hashPair. f_equal. exact IH.
Qed.

(** The loops of the client and of the contract keep step, level by
    level, on the bytes the strings stand for. *)
Lemma buildLoop_parity (fuel : nat) :
  forall (level top : list string),
  Forall valid_hash level -> buildLoop fuel level = Returns top ->
  Sol.buildLoop fuel (bytes32 <$> level) = Sol.Success (bytes32 <$> top).
Proof.
  induction fuel as [|fuel IH]; intros level top Hv Hrun; [discriminate|].
  cbn [buildLoop Sol.buildLoop] in *. rewrite length_fmap.
  destruct (1 <? length level).
  - rewrite (buildNextLevel_valid level Hv) in Hrun. cbn [mbind outcome_bind] in Hrun.
    rewrite sol_nextLevel_spec, <- bytes32_pairUp. cbn [mbind Sol.result_bind].
    apply IH; [by apply Forall_valid_pairUp | done].
  - by injection Hrun as <-.
Qed.

(** X9.  Client and contract build the same tree: for every list of
    32-byte hashes, [SnarktorUtils.buildMerkleTree] applied to the bytes of
    the hashes succeeds with the bytes of the root the client's
    [buildMerkleTree] returns; on the empty list the one throws and the
    other reverts. *)
Theorem contract_builds_same_root (leaves : list string) :
  Forall valid_hash leaves ->
  (leaves = [] ->
   buildMerkleTree leaves = Throws EmptyLeafSet /\
   Sol.buildMerkleTree (bytes32 <$> leaves) = Sol.Revert "Empty leaves array") /\
  (leaves <> [] ->
   exists root,
     buildMerkleTree leaves = Returns (Some root) /\
     Sol.buildMerkleTree (bytes32 <$> leaves) = Sol.Success (bytes32 root)).
Proof.
  intros Hv. split; [by intros ->|]. intros Hne.
  destruct leaves as [|a [|b rest]]; [done | by exists a |].
  unfold buildMerkleTree, Sol.buildMerkleTree. rewrite length_fmap.
  change (length (a :: b :: rest) =? 0) with false.
  change (length (a :: b :: rest) =? 1) with false.
  change (0 <? length (a :: b :: rest)) with true. cbv iota.
  destruct (buildLoop_valid (length (a :: b :: rest)) (a :: b :: rest))
    as (h & Hloop & _); [done | done | lia |].
  rewrite (buildLoop_parity _ _ _ Hv Hloop), Hloop.
  exists h. split; reflexivity.
Qed.

Lemma contract_builds_same_root_witness :
  Forall valid_hash [proof1; proof2; proof3] /\
  [proof1; proof2; proof3] <> [] /\
  exists root,
    buildMerkleTree [proof1; proof2; proof3] = Returns (Some root) /\
    Sol.buildMerkleTree (bytes32 <$> [proof1; proof2; proof3])
    = Sol.Success (bytes32 root).
Proof.
  assert (Hv : Forall valid_hash [proof1; proof2; proof3]) by check_hashes.
  assert (Hne : [proof1; proof2; proof3] <> []) by discriminate.
  split; [exact Hv|]. split; [exact Hne|].
  exact (proj2 (contract_builds_same_root _ Hv) Hne).
Defined.

(** X10.  [SnarktorVerifier.verifyMerkleRoot] always succeeds, emits one
    [MerkleRootValidated] event carrying its answer and changes nothing
    else; the answer is [true] exactly when [SnarktorUtils.buildMerkleTree]
    of the same array succeeds with that root (so [false] on the empty
    array). *)
Theorem verifyMerkleRoot_decides_root
    (merkleRoot : list byte) (proofs : list (list byte)) (st : Sol.storage) :
  exists isValid,
    Sol.verifyMerkleRoot merkleRoot proofs st
    = Sol.Success (isValid, Sol.emit (Sol.MerkleRootValidated merkleRoot isValid) st) /\
    (isValid = true <-> Sol.buildMerkleTree proofs = Sol.Success merkleRoot).
Proof.
  unfold Sol.verifyMerkleRoot, Sol.buildMerkleTree.
  destruct proofs as [|a [|b rest]].
  - exists false. split; [reflexivity|]. split; discriminate.
  - exists (bool_decide (merkleRoot = a)). split; [reflexivity|].
    rewrite bool_decide_eq_true. cbn. split; [by intros -> | by intros [= ->]].
  - change (length (a :: b :: rest) =? 0) with false.
    change (length (a :: b :: rest) =? 1) with false.
    change (0 <? length (a :: b :: rest)) with true. cbv iota.
    destruct (sol_buildLoop_total (length (a :: b :: rest)) (a :: b :: rest))
      as [top Hloop]; [done | lia |].
    rewrite Hloop. cbn [mbind Sol.result_bind Sol.read lookup list_lookup].
    exists (bool_decide (top = merkleRoot)). split; [reflexivity|].
    rewrite bool_decide_eq_true. split; [by intros -> | by intros [= ->]].
Qed.

(** X11.  What the client computes the contract accepts: the root
    returned by the client's [buildMerkleTree] for a list of 32-byte
    hashes passes [verifyMerkleRoot] against the same list. *)
Theorem contract_accepts_client_root
    (leaves : list string) (root : string) (st : Sol.storage) :
  Forall valid_hash leaves ->
  buildMerkleTree leaves = Returns (Some root) ->
  Sol.verifyMerkleRoot (bytes32 root) (bytes32 <$> leaves) st
  = Sol.Success (true, Sol.emit (Sol.MerkleRootValidated (bytes32 root) true) st).
Proof.
  intros Hv Hroot. unfold Sol.verifyMerkleRoot. rewrite length_fmap.
  destruct leaves as [|a [|b rest]]; [discriminate | |].
  - injection Hroot as <-. cbn. by rewrite bool_decide_eq_true_2.
  - unfold buildMerkleTree in Hroot.
    change (length (a :: b :: rest) =? 0) with false in *.
    change (length (a :: b :: rest) =? 1) with false in *. cbv iota in *.
    destruct (buildLoop_valid (length (a :: b :: rest)) (a :: b :: rest))
      as (h & Hloop & _); [done | done | lia |].
    rewrite Hloop in Hroot. injection Hroot as <-.
    rewrite (buildLoop_parity _ _ _ Hv Hloop).
    cbn [mbind Sol.result_bind fmap list_fmap Sol.read lookup list_lookup].
    by rewrite bool_decide_eq_true_2.
Qed.

Lemma contract_accepts_client_root_witness :
  let st := {| Sol.baseProofs := ∅; Sol.aggregatedProofs := ∅; Sol.events := [] |} in
  Forall valid_hash [proof1; proof2; proof3] /\
  buildMerkleTree [proof1; proof2; proof3]
  = Returns (Some (hashPair (hashPair proof1 proof2) proof3)) /\
  Sol.verifyMerkleRoot (bytes32 (hashPair (hashPair proof1 proof2) proof3))
    (bytes32 <$> [proof1; proof2; proof3]) st
  = Sol.Success
      (true,
       Sol.emit (Sol.MerkleRootValidated
                   (bytes32 (hashPair (hashPair proof1 proof2) proof3)) true) st).
Proof.
  intros st.
  assert (Hv : Forall valid_hash [proof1; proof2; proof3]) by check_hashes.
  assert (Hroot : buildMerkleTree [proof1; proof2; proof3]
                  = Returns (Some (hashPair (hashPair proof1 proof2) proof3)))
    by (vm_compute; reflexivity).
  split; [exact Hv|]. split; [exact Hroot|].
  exact (contract_accepts_client_root _ _ st Hv Hroot).
Defined.

End ContractTree.

Section ContractVerification.

Lemma sol_verifyLoop_bytes32 (siblings : list string) :
  forall (index : nat) (computedHash : string),
  Sol.verifyLoop (bytes32 <$> siblings) index (bytes32 computedHash)
  = bytes32 (foldPath siblings index computedHash).
Proof.
  induction siblings as [|s rest IH]; intros index h; [reflexivity|].
  cbn [fmap list_fmap Sol.verifyLoop foldPath]. rewrite even_mod2.
  destruct (index mod 2 =? 0); rewrite <- bytes32_hashPair; apply IH.
Qed.

(** X12.  Client and contract verify alike: for 32-byte siblings and
    leaf, with leaf and root in the lower-case form ethers prints, the
    client's [verifyMerkleProof] returns [true] exactly when the
    contract's [verifyMerkleProof] does on the bytes of the same values. *)
Theorem contract_verifies_alike
    (siblings : list string) (index : nat) (leaf root : string) :
  Forall valid_hash siblings -> valid_hash leaf ->
  canonical leaf -> canonical root ->
  (verifyMerkleProof siblings index leaf root = Returns true <->
   Sol.verifyMerkleProof (bytes32 <$> siblings) index (bytes32 leaf) (bytes32 root)
   = true).
Proof.
  intros Hv Hl Hcl Hcr. unfold verifyMerkleProof, Sol.verifyMerkleProof.
  rewrite (verifyLoop_valid siblings index leaf Hv Hl). cbn [mbind outcome_bind].
  rewrite sol_verifyLoop_bytes32, bool_decide_eq_true.
  rewrite <- (canonical_eq_iff _ _ (canonical_foldPath siblings index leaf Hcl) Hcr).
  rewrite <- String.eqb_eq. split; [by intros [= ->] | by intros ->].
Qed.

Lemma contract_verifies_alike_witness :
  Forall valid_hash [proof1; proof3] /\ valid_hash proof2 /\
  canonical proof2 /\ canonical (hashPair (hashPair proof1 proof2) proof3) /\
  (verifyMerkleProof [proof1; proof3] 1 proof2
     (hashPair (hashPair proof1 proof2) proof3) = Returns true <->
   Sol.verifyMerkleProof (bytes32 <$> [proof1; proof3]) 1 (bytes32 proof2)
     (bytes32 (hashPair (hashPair proof1 proof2) proof3)) = true).
Proof.
  assert (Hv : Forall valid_hash [proof1; proof3]) by check_hashes.
  assert (Hl : valid_hash proof2) by check_hash.
  assert (Hcl : canonical proof2) by check_hash.
  assert (Hcr : canonical (hashPair (hashPair proof1 proof2) proof3)) by check_hash.
  split; [exact Hv|]. split; [exact Hl|]. split; [exact Hcl|]. split; [exact Hcr|].
  exact (contract_verifies_alike _ 1 _ _ Hv Hl Hcl Hcr).
Defined.

(** X13.  End to end, for a tree whose size is a power of two: once the
    root the client built is registered for an aggregate and the leaf is
    registered as a base proof, the contract's [verifyProofInclusion]
    accepts the path the client generated for that leaf, whatever the
    [leaf] field of the proof says. *)
Theorem verifyProofInclusion_accepts_client_path
    (leaves : list string) (k i : nat) (root h : string)
    (proof : MerkleProof) (siblings : list string)
    (aggregatedHash anyLeaf : list byte) (st : Sol.storage) :
  Forall valid_hash leaves -> length leaves = 2 ^ k -> leaves !! i = Some h ->
  buildMerkleTree leaves = Returns (Some root) ->
  generateMerkleProof leaves i = Returns proof ->
  path proof = map Some siblings ->
  Sol.ap_exists (Sol.aggregatedProofAt st aggregatedHash) = true ->
  Sol.ap_merkleRoot (Sol.aggregatedProofAt st aggregatedHash) = bytes32 root ->
  Sol.bp_exists (Sol.baseProofAt st (bytes32 h)) = true ->
  Sol.verifyProofInclusion (bytes32 h) aggregatedHash
    {| Sol.mp_path := bytes32 <$> siblings; Sol.mp_index := index proof;
       Sol.mp_leaf := anyLeaf |} st
  = Sol.Success
      (true, Sol.emit (Sol.ProofInclusionVerified (bytes32 h) aggregatedHash true) st).
Proof.
  intros Hv Hlen Hh Hroot Hgen Hpath Hagg Hstored Hbase.
  assert (Hi : i < length leaves) by (eapply lookup_lt_Some; eauto).
  destruct (generate_build_pow2 k leaves i h [] (length leaves) Hv Hlen Hh (le_n _))
    as (sibs & Hvs & Hls & Hloop & Hbuild).
  assert (Hproof : proof = {| path := map Some sibs; index := i; leaf := Some h |}).
  { unfold generateMerkleProof in Hgen.
    assert (Hcmp : (length leaves <=? i) = false) by (apply Nat.leb_gt; lia).
    rewrite Hcmp in Hgen.
    change (@nil (option string)) with (map Some (@nil string)) in Hgen.
    rewrite Hloop, Hh in Hgen. by injection Hgen as <-. }
  subst proof. cbn [path index] in *.
  assert (Hsame : siblings = sibs).
  { clear -Hpath. revert sibs Hpath.
    induction siblings as [|s l IH]; intros [|s' l'] H; try discriminate; [done|].
    cbn in H. injection H as -> H. f_equal. by apply IH. }
  subst siblings.
  assert (Hfold : foldPath sibs i h = root).
  { destruct leaves as [|a [|b rest]]; [done | |]; unfold buildMerkleTree in Hroot.
    - destruct k; [|pose proof (Nat.pow_succ_r' 2 k);
                    pose proof (Nat.pow_nonzero 2 k); cbn [length] in Hlen; lia].
      destruct sibs; [|discriminate]. destruct i; [|cbn in Hi; lia].
      unfold buildMerkleTree in Hroot. cbn in Hh, Hroot |- *.
      injection Hh as <-. by injection Hroot as <-.
    - change (length (a :: b :: rest) =? 0) with false in Hroot.
      change (length (a :: b :: rest) =? 1) with false in Hroot. cbv iota in Hroot.
      rewrite Hbuild in Hroot. by injection Hroot as <-. }
  unfold Sol.verifyProofInclusion. rewrite Hagg, Hbase, Hstored.
  cbn [Sol.mp_path Sol.mp_index]. unfold Sol.verifyMerkleProof.
  rewrite sol_verifyLoop_bytes32, Hfold. by rewrite bool_decide_eq_true_2.
Qed.

End ContractVerification.

Section ContractStorage.

Lemma verifyProofInclusion_accepts_client_path_witness :
  let leaves := [proof1; proof2; proof3; proof4] in
  let root := hashPair (hashPair proof1 proof2) (hashPair proof3 proof4) in
  let proof := {| path := [Some proof3; Some (hashPair proof1 proof2)];
                  index := 3; leaf := Some proof4 |} in
  let st :=
    Sol.addBaseProofData (bytes32 proof4) Sol.zero32 Sol.zero32
      (Sol.addAggregatedProofData Sol.zero32 (bytes32 root) []
         {| Sol.baseProofs := ∅; Sol.aggregatedProofs := ∅; Sol.events := [] |}) in
  buildMerkleTree leaves = Returns (Some root) /\
  generateMerkleProof leaves 3 = Returns proof /\
  Sol.verifyProofInclusion (bytes32 proof4) Sol.zero32
    {| Sol.mp_path := bytes32 <$> [proof3; hashPair proof1 proof2];
       Sol.mp_index := 3; Sol.mp_leaf := Sol.zero32 |} st
  = Sol.Success
      (true,
       Sol.emit (Sol.ProofInclusionVerified (bytes32 proof4) Sol.zero32 true) st).
Proof.
  intros leaves root proof st.
  assert (Hv : Forall valid_hash leaves) by (unfold leaves; check_hashes).
  assert (Hlen : length leaves = 2 ^ 2) by reflexivity.
  assert (Hh : leaves !! 3 = Some proof4) by reflexivity.
  assert (Hroot : buildMerkleTree leaves = Returns (Some root))
    by (vm_compute; reflexivity).
  assert (Hgen : generateMerkleProof leaves 3 = Returns proof)
    by (vm_compute; reflexivity).
  assert (Hpath : path proof = map Some [proof3; hashPair proof1 proof2])
    by reflexivity.
  assert (Hagg : Sol.ap_exists (Sol.aggregatedProofAt st Sol.zero32) = true)
    by (vm_compute; reflexivity).
  assert (Hstored : Sol.ap_merkleRoot (Sol.aggregatedProofAt st Sol.zero32)
                    = bytes32 root) by (vm_compute; reflexivity).
  assert (Hbase : Sol.bp_exists (Sol.baseProofAt st (bytes32 proof4)) = true)
    by (vm_compute; reflexivity).
  split; [exact Hroot|]. split; [exact Hgen|].
  exact (verifyProofInclusion_accepts_client_path leaves 2 3 root proof4 proof
           [proof3; hashPair proof1 proof2] Sol.zero32 Sol.zero32 st
           Hv Hlen Hh Hroot Hgen Hpath Hagg Hstored Hbase).
Defined.

(** X14.  [verifyProofInclusion] decides on the stored root, the path,
    the index and the base proof hash alone: neither the [leaf] field of
    the proof nor the list of included proofs stored with the aggregate
    changes its answer; and it reverts when either record is missing, the
    aggregate being looked up first. *)
Theorem verifyProofInclusion_ignores_leaf_and_list
    (baseProofHash aggregatedHash root : list byte)
    (proofPath : list (list byte)) (idx : nat) (leaf leaf' : list byte)
    (included included' : list (list byte)) (st : Sol.storage) :
  (Sol.isBaseProofAvailable baseProofHash st = true ->
   exists verified,
     Sol.verifyProofInclusion baseProofHash aggregatedHash
       {| Sol.mp_path := proofPath; Sol.mp_index := idx; Sol.mp_leaf := leaf |}
       (Sol.addAggregatedProofData aggregatedHash root included st)
     = Sol.Success
         (verified,
          Sol.emit (Sol.ProofInclusionVerified baseProofHash aggregatedHash verified)
            (Sol.addAggregatedProofData aggregatedHash root included st)) /\
     Sol.verifyProofInclusion baseProofHash aggregatedHash
       {| Sol.mp_path := proofPath; Sol.mp_index := idx; Sol.mp_leaf := leaf' |}
       (Sol.addAggregatedProofData aggregatedHash root included' st)
     = Sol.Success
         (verified,
          Sol.emit (Sol.ProofInclusionVerified baseProofHash aggregatedHash verified)
            (Sol.addAggregatedProofData aggregatedHash root included' st)) /\
     verified = Sol.verifyMerkleProof proofPath idx baseProofHash root) /\
  (Sol.isAggregatedProofAvailable aggregatedHash st = false ->
   Sol.verifyProofInclusion baseProofHash aggregatedHash
     {| Sol.mp_path := proofPath; Sol.mp_index := idx; Sol.mp_leaf := leaf |} st
   = Sol.Revert "Aggregated proof data not available") /\
  (Sol.isAggregatedProofAvailable aggregatedHash st = true ->
   Sol.isBaseProofAvailable baseProofHash st = false ->
   Sol.verifyProofInclusion baseProofHash aggregatedHash
     {| Sol.mp_path := proofPath; Sol.mp_index := idx; Sol.mp_leaf := leaf |} st
   = Sol.Revert "Base proof data not available").
Proof.
  unfold Sol.isBaseProofAvailable, Sol.isAggregatedProofAvailable.
  split; [|split].
  - intros Hbase.
    exists (Sol.verifyMerkleProof proofPath idx baseProofHash root).
    unfold Sol.verifyProofInclusion, Sol.aggregatedProofAt, Sol.baseProofAt in *.
    cbn [Sol.addAggregatedProofData Sol.aggregatedProofs Sol.baseProofs
         Sol.mp_path Sol.mp_index].
    rewrite !lookup_insert_eq. cbn [default Sol.ap_exists Sol.ap_merkleRoot].
    rewrite Hbase. done.
  - intros Hagg. unfold Sol.verifyProofInclusion. by rewrite Hagg.
  - intros Hagg Hbase. unfold Sol.verifyProofInclusion. by rewrite Hagg, Hbase.
Qed.

Lemma verifyProofInclusion_ignores_leaf_and_list_witness :
  let st := {| Sol.baseProofs := ∅; Sol.aggregatedProofs := ∅; Sol.events := [] |} in
  Sol.isAggregatedProofAvailable Sol.zero32 st = false /\
  Sol.verifyProofInclusion (bytes32 proof1) Sol.zero32
    {| Sol.mp_path := []; Sol.mp_index := 0; Sol.mp_leaf := bytes32 proof1 |} st
  = Sol.Revert "Aggregated proof data not available".
Proof.
  intros st.
  assert (Hagg : Sol.isAggregatedProofAvailable Sol.zero32 st = false) by reflexivity.
  split; [exact Hagg|].
  exact (proj1 (proj2 (verifyProofInclusion_ignores_leaf_and_list
           (bytes32 proof1) Sol.zero32 Sol.zero32 [] 0 (bytes32 proof1) Sol.zero32
           [] [] st)) Hagg).
Defined.

(** X15.  The registry of base proofs: a record added is what
    [getBaseProof] returns for its hash, adding again for the same hash
    replaces it without complaint, records under other hashes, the
    aggregates and the event log are untouched, and a hash never added
    makes [getBaseProof] revert. *)
Theorem addBaseProofData_registry
    (h publicInput verificationKey publicInput' verificationKey' other : list byte)
    (st : Sol.storage) :
  Sol.getBaseProof h (Sol.addBaseProofData h publicInput verificationKey st)
  = Sol.Success {| Sol.bp_proofHash := h; Sol.bp_publicInput := publicInput;
                   Sol.bp_verificationKey := verificationKey;
                   Sol.bp_exists := true |} /\
  Sol.addBaseProofData h publicInput' verificationKey'
    (Sol.addBaseProofData h publicInput verificationKey st)
  = Sol.addBaseProofData h publicInput' verificationKey' st /\
  (other <> h ->
   Sol.getBaseProof other (Sol.addBaseProofData h publicInput verificationKey st)
   = Sol.getBaseProof other st) /\
  Sol.aggregatedProofs (Sol.addBaseProofData h publicInput verificationKey st)
  = Sol.aggregatedProofs st /\
  Sol.events (Sol.addBaseProofData h publicInput verificationKey st)
  = Sol.events st /\
  (Sol.baseProofs st !! h = None ->
   Sol.getBaseProof h st = Sol.Revert "Base proof data not available").
Proof.
  split; [|split; [|split; [|split; [|split]]]]; try reflexivity.
  - unfold Sol.getBaseProof, Sol.baseProofAt. cbn [Sol.addBaseProofData Sol.baseProofs].
    by rewrite lookup_insert_eq.
  - unfold Sol.addBaseProofData. cbn [Sol.baseProofs Sol.aggregatedProofs Sol.events].
    by rewrite insert_insert_eq.
  - intros Hne. unfold Sol.getBaseProof, Sol.baseProofAt.
    cbn [Sol.addBaseProofData Sol.baseProofs]. by rewrite lookup_insert_ne.
  - intros Hnone. unfold Sol.getBaseProof, Sol.baseProofAt. by rewrite Hnone.
Qed.

Lemma addBaseProofData_registry_witness :
  let st := {| Sol.baseProofs := ∅; Sol.aggregatedProofs := ∅; Sol.events := [] |} in
  bytes32 proof2 <> bytes32 proof1 /\
  Sol.getBaseProof (bytes32 proof2)
    (Sol.addBaseProofData (bytes32 proof1) Sol.zero32 Sol.zero32 st)
  = Sol.getBaseProof (bytes32 proof2) st.
Proof.
  intros st.
  assert (Hne : bytes32 proof2 <> bytes32 proof1) by (vm_compute; discriminate).
  split; [exact Hne|].
  exact (proj1 (proj2 (proj2 (addBaseProofData_registry
           (bytes32 proof1) Sol.zero32 Sol.zero32 Sol.zero32 Sol.zero32
           (bytes32 proof2) st))) Hne).
Defined.

End ContractStorage.

Section ContractPath.






(** For the promoted leaf of three the contract's path carries a zero
    word where the client's path has nothing, and the contract's own
    verifier rejects it. *)
Example sol_promoted_leaf :
  Sol.generateMerkleProof (bytes32 <$> [proof1; proof2; proof3]) 2
  = Sol.Success ([Sol.zero32; bytes32 (hashPair proof1 proof2)], 2) /\
  Sol.verifyMerkleProof [Sol.zero32; bytes32 (hashPair proof1 proof2)] 2
    (bytes32 proof3) (bytes32 (hashPair (hashPair proof1 proof2) proof3)) = false.
Proof. vm_compute. auto. Qed.

End ContractPath.

Section ContractUtilities.

Lemma length_list_byte_of_string (s : string) :
  length (list_byte_of_string s) = String.length s.
Proof.
  induction s as [|c s IH]; [reflexivity|].
  cbn. f_equal. exact IH.
Qed.

Lemma take_plus {A} (n m : nat) (l : list A) :
  take (n + m) l = take n l ++ take m (drop n l).
Proof.
  revert l. induction n as [|n IH]; intros l; [reflexivity|].
  destruct l as [|x l]; [by destruct m|]. cbn. f_equal. apply IH.
Qed.

(** X17.  [parseTransactionData] reverts on fewer than 96 bytes;
    otherwise its three results are 32 bytes each, put together they are
    the first 96 bytes of the payload, and the first of them is what
    [extractProofData] returns for the same payload. *)
Theorem parseTransactionData_words (data : list byte) :
  (length data < 96 ->
   Sol.parseTransactionData data = Sol.Revert "Insufficient transaction data") /\
  (96 <= length data ->
   exists proofHash publicInputHash metadataHash,
     Sol.parseTransactionData data
     = Sol.Success (proofHash, publicInputHash, metadataHash) /\
     length proofHash = 32 /\ length publicInputHash = 32 /\
     length metadataHash = 32 /\
     proofHash ++ publicInputHash ++ metadataHash = take 96 data /\
     Sol.extractProofData data = Sol.Success proofHash).
Proof.
  unfold Sol.parseTransactionData, Sol.extractProofData. split.
  - intros Hlt. apply Nat.leb_gt in Hlt. by rewrite Hlt.
  - intros Hge.
    assert (H96 : (96 <=? length data) = true) by (apply Nat.leb_le; lia).
    assert (H32 : (32 <=? length data) = true) by (apply Nat.leb_le; lia).
    rewrite H96, H32.
    exists (take 32 data), (take 32 (drop 32 data)), (take 32 (drop 64 data)).
    split; [reflexivity|].
    rewrite !length_take, !length_drop.
    split; [lia|]. split; [lia|]. split; [lia|]. split; [|reflexivity].
    change (take 96 data) with (take (32 + (32 + 32)) data).
    rewrite !take_plus, drop_drop. reflexivity.
Qed.

Lemma parseTransactionData_words_witness :
  length (bytes32 proof1 ++ bytes32 proof2 ++ bytes32 proof3) >= 96 /\
  exists proofHash publicInputHash metadataHash,
    Sol.parseTransactionData (bytes32 proof1 ++ bytes32 proof2 ++ bytes32 proof3)
    = Sol.Success (proofHash, publicInputHash, metadataHash) /\
    Sol.extractProofData (bytes32 proof1 ++ bytes32 proof2 ++ bytes32 proof3)
    = Sol.Success proofHash.
Proof.
  assert (Hlen : 96 <= length (bytes32 proof1 ++ bytes32 proof2 ++ bytes32 proof3))
    by (vm_compute; lia).
  split; [exact Hlen|].
  destruct (proj2 (parseTransactionData_words _) Hlen)
    as (a & b & c & Hparse & _ & _ & _ & _ & Hextract).
  exists a, b, c. split; [exact Hparse | exact Hextract].
Defined.

(** X18.  [parseHexData] succeeds only on strings of exactly 64 bytes and
    then returns the first 32 of them as they are, without decoding any
    hex digit; a hash as the client prints it ("0x" and 64 digits, 66
    characters) is always refused. *)
Theorem parseHexData_takes_raw_bytes (hexData : string) :
  (String.length hexData = 64 ->
   Sol.parseHexData hexData = Sol.Success (take 32 (list_byte_of_string hexData))) /\
  (String.length hexData < 64 ->
   Sol.parseHexData hexData = Sol.Revert "Invalid hex data format") /\
  (64 < String.length hexData ->
   Sol.parseHexData hexData = Sol.Revert "Invalid hex string length") /\
  (valid_hash hexData ->
   Sol.parseHexData hexData = Sol.Revert "Invalid hex string length").
Proof.
  unfold Sol.parseHexData, Sol._hexStringToBytes32.
  rewrite length_list_byte_of_string.
  assert (Hlong : 64 < String.length hexData ->
    (if 64 <=? String.length hexData
     then if String.length hexData =? 64
          then Sol.Success (take 32 (list_byte_of_string hexData))
          else Sol.Revert "Invalid hex string length"
     else Sol.Revert "Invalid hex data format")
    = Sol.Revert "Invalid hex string length").
  { intros Hgt.
    assert (H1 : (64 <=? String.length hexData) = true) by (apply Nat.leb_le; lia).
    assert (H2 : (String.length hexData =? 64) = false) by (apply Nat.eqb_neq; lia).
    by rewrite H1, H2. }
  split; [|split; [|split]].
  - intros ->. reflexivity.
  - intros Hlt. apply Nat.leb_gt in Hlt. by rewrite Hlt.
  - exact Hlong.
  - intros Hv. apply Hlong.
    unfold valid_hash, is_bytes32 in Hv. apply andb_true_iff in Hv as [_ Hlen].
    apply Nat.eqb_eq in Hlen. lia.
Qed.

Lemma parseHexData_takes_raw_bytes_witness :
  valid_hash proof1 /\
  Sol.parseHexData proof1 = Sol.Revert "Invalid hex string length".
Proof.
  assert (Hv : valid_hash proof1) by check_hash.
  split; [exact Hv|].
  exact (proj2 (proj2 (proj2 (parseHexData_takes_raw_bytes proof1))) Hv).
Defined.

End ContractUtilities.

Section VerifierInputs.

Lemma verifyLoop_returns_inv (siblings : list string) :
  forall (index : nat) (computedHash result : string),
  siblings <> [] ->
  verifyLoop siblings index computedHash = Returns result ->
  Forall valid_hash siblings /\ valid_hash computedHash.
Proof.
  induction siblings as [|s rest IH]; intros index h result Hne Hrun; [done|].
  cbn [verifyLoop] in Hrun.
  destruct (index mod 2 =? 0).
  - destruct (solidityKeccak256 h s) as [h'| |] eqn:Hh; try discriminate.
    destruct (solidityKeccak256_inv h s h' Hh) as [Hvh Hvs].
    cbn [mbind outcome_bind] in Hrun.
    destruct rest as [|s' rest']; [by repeat constructor|].
    destruct (IH _ _ _ ltac:(discriminate) Hrun) as [Hrest _].
    split; [by apply Forall_cons_2 | done].
  - destruct (solidityKeccak256 s h) as [h'| |] eqn:Hh; try discriminate.
    destruct (solidityKeccak256_inv s h h' Hh) as [Hvs Hvh].
    cbn [mbind outcome_bind] in Hrun.
    destruct rest as [|s' rest']; [by repeat constructor|].
    destruct (IH _ _ _ ltac:(discriminate) Hrun) as [Hrest _].
    split; [by apply Forall_cons_2 | done].
Qed.

(** X19.  With at least one sibling, [verifyMerkleProof] returns a
    boolean exactly when every sibling and the leaf are 32-byte hex
    strings; given anything else it throws instead of answering [false].
    With no sibling it compares leaf and root as they are and always
    returns. *)
Theorem verifyMerkleProof_returns_iff_well_typed
    (siblings : list string) (index : nat) (leaf root : string) :
  (siblings <> [] ->
   (returns (verifyMerkleProof siblings index leaf root)
    <-> Forall valid_hash siblings /\ valid_hash leaf)) /\
  verifyMerkleProof [] index leaf root = Returns (String.eqb leaf root).
Proof.
  split; [|reflexivity]. intros Hne. unfold verifyMerkleProof. split.
  - intros [b Hb].
    destruct (verifyLoop siblings index leaf) as [h| |] eqn:Hrun; try discriminate.
    by apply (verifyLoop_returns_inv siblings index leaf h).
  - intros [Hv Hl]. rewrite (verifyLoop_valid siblings index leaf Hv Hl).
    by eexists.
Qed.

Lemma verifyMerkleProof_returns_iff_well_typed_witness :
  [proof1] <> [] /\
  (returns (verifyMerkleProof [proof1] 0 "0x1234" proof2)
   <-> Forall valid_hash [proof1] /\ valid_hash "0x1234").
Proof.
  assert (Hne : [proof1] <> []) by discriminate.
  split; [exact Hne|].
  exact (proj1 (verifyMerkleProof_returns_iff_well_typed [proof1] 0 "0x1234" proof2) Hne).
Defined.

Example verifyMerkleProof_short_leaf_throws :
  verifyMerkleProof [proof1] 0 "0x1234" proof2
  = Throws (InvalidArgument "invalid value for bytes32").
Proof. vm_compute. reflexivity. Qed.

End VerifierInputs.

Section FreshPath.

Lemma keeps_generateMerkleProof_fresh (σ0 : Imp.store) (proofHashes leafIndex : nat) :
  keeps σ0 (Imp.generateMerkleProof proofHashes leafIndex)
    (fun ref => σ0 !! Imp.path_ref ref = None).
Proof.
  unfold Imp.generateMerkleProof. eapply keeps_bind; [apply keeps_array_length|].
  intros len _. destruct (len <=? leafIndex); [apply keeps_throw|].
  eapply keeps_bind; [apply keeps_new_array|]. intros pathArr Hpath.
  eapply keeps_bind; [apply keeps_read_array|]. intros copy _.
  eapply keeps_bind; [apply keeps_new_array|]. intros cur _.
  eapply keeps_bind; [by apply keeps_generateLoop|]. intros _ _.
  eapply keeps_bind; [apply keeps_array_get|]. intros leaf _.
  by apply keeps_ret.
Qed.

Lemma generateMerkleProof_needs_array (σ : Imp.store) (proofHashes leafIndex : nat) :
  σ !! proofHashes = None ->
  (Imp.generateMerkleProof proofHashes leafIndex σ).1
  = Throws (TypeError "Cannot read properties of undefined").
Proof.
  intros Hnone.
  unfold Imp.generateMerkleProof, Imp.bind, Imp.array_length, Imp.bind, Imp.read_array.
  by rewrite Hnone.
Qed.

(** X20.  The path array in the object [generateMerkleProof] returns is
    a new array: it is none of the arrays that existed before the call,
    the input array included, and every array that existed before the
    call is unchanged. *)
Theorem generateMerkleProof_path_is_fresh
    (σ σ' : Imp.store) (proofHashes leafIndex : nat) (ref : Imp.MerkleProofRef) :
  Imp.generateMerkleProof proofHashes leafIndex σ = (Returns ref, σ') ->
  σ !! Imp.path_ref ref = None /\
  Imp.path_ref ref <> proofHashes /\
  σ ⊆ σ'.
Proof.
  intros Hrun.
  destruct (keeps_generateMerkleProof_fresh σ proofHashes leafIndex σ) as [Hsub Hq];
    [done|].
  rewrite Hrun in Hsub, Hq. cbn [fst snd] in Hsub, Hq.
  specialize (Hq ref eq_refl).
  split; [exact Hq|]. split; [|exact Hsub].
  intros Heq. rewrite Heq in Hq.
  pose proof (generateMerkleProof_needs_array σ proofHashes leafIndex Hq) as Hthrow.
  rewrite Hrun in Hthrow. discriminate.
Qed.

Lemma generateMerkleProof_path_is_fresh_witness :
  let σ : Imp.store := {[ 7 := [Some proof1; Some proof2; Some proof3] ]} in
  exists ref σ',
    Imp.generateMerkleProof 7 1 σ = (Returns ref, σ') /\
    σ !! Imp.path_ref ref = None /\ Imp.path_ref ref <> 7.
Proof.
  intros σ.
  destruct (Imp.generateMerkleProof 7 1 σ) as [[ref| |] σ'] eqn:Hrun;
    try (vm_compute in Hrun; discriminate).
  exists ref, σ'. split; [reflexivity|].
  destruct (generateMerkleProof_path_is_fresh σ σ' 7 1 ref Hrun) as (H1 & H2 & _).
  split; [exact H1 | exact H2].
Defined.

End FreshPath.
